(** * Vacuum World planner (planner.py): shallow embedding and verification

    The planner searches a grid world for a sequence of move and vacuum
    actions that cleans every dirty cell, with a uniform-cost strategy
    ([ucs], a [heapq] priority queue) or a depth-first strategy ([dfs], a
    Python list used as a stack).

    Layout of the development:
    - [heapq]: the two operations of Python's [heapq] module used by [ucs],
      on a list, with the sift loops written as in the library;
    - the data model ([RobotState], the world grid, the result of a run);
    - the search loop, written once over the frontier operations, and its
      two instances [ucs] and [dfs];
    - the replay semantics of action sequences;
    - invariants of the loop and the theorems of the specification;
    - the program as a whole ([read_input_file], [main_argv]), what
      [read_input] returns, and further properties of returned plans and
      of the two frontiers. *)

From stdpp Require Import gmap strings list.
From Stdlib Require Import ZArith Lia ZifyNat Ascii.

Local Open Scope Z_scope.
Set Default Proof Using "Type*".

(* ===================================================================== *)
(** ** Python's heapq on lists *)
(* ===================================================================== *)

(** The heap is a Python list. [heap !!! i] stands for the read [heap[i]]
    and [<[i := x]> heap] for the assignment [heap[i] = x]; the sift loops
    only touch positions inside the list (this is part of [hole_up] and
    [siftup_loop_spec] below), so Python's [IndexError] does not occur in
    them. [heappop] on an empty list does raise; it returns an option. *)
Module heapq.
Section Heapq.
Context {A : Type} `{Inhabited A}.
(** [lt a b] is Python's [a < b] on the heap items. *)
Variable lt : A → A → bool.

(** [_siftdown(heap, startpos, pos)]: the loop

      while pos > startpos:
          parentpos = (pos - 1) >> 1
          parent = heap[parentpos]
          if newitem < parent:
              heap[pos] = parent; pos = parentpos; continue
          break
      heap[pos] = newitem

    The position strictly decreases, so [pos] iterations are enough:
    [fuel] is the structural argument only (see [siftdown_loop_fuel]). *)
Fixpoint siftdown_loop (fuel : nat) (heap : list A) (newitem : A)
    (startpos pos : nat) : list A :=
  match fuel with
  | O => <[pos := newitem]> heap
  | S fuel' =>
      if bool_decide (startpos < pos)%nat then
        let parentpos := ((pos - 1) / 2)%nat in
        let parent := heap !!! parentpos in
        if lt newitem parent
        then siftdown_loop fuel' (<[pos := parent]> heap) newitem startpos parentpos
        else <[pos := newitem]> heap
      else <[pos := newitem]> heap
  end.

Definition siftdown (heap : list A) (startpos pos : nat) : list A :=
  let newitem := heap !!! pos in
  siftdown_loop pos heap newitem startpos pos.

(** [_siftup(heap, pos)], first loop: bubble the smaller child up until
    the hole reaches a leaf.

      childpos = 2*pos + 1
      while childpos < endpos:
          rightpos = childpos + 1
          if rightpos < endpos and not heap[childpos] < heap[rightpos]:
              childpos = rightpos
          heap[pos] = heap[childpos]
          pos = childpos
          childpos = 2*pos + 1

    Returns the list and the final position of the hole. The position
    strictly increases, so [endpos] iterations are enough (see
    [siftup_loop_fuel]). *)
Fixpoint siftup_loop (fuel : nat) (heap : list A) (endpos pos : nat)
    : list A * nat :=
  match fuel with
  | O => (heap, pos)
  | S fuel' =>
      let childpos := (2 * pos + 1)%nat in
      if bool_decide (childpos < endpos)%nat then
        let rightpos := (childpos + 1)%nat in
        let childpos :=
          if bool_decide (rightpos < endpos)%nat
             && negb (lt (heap !!! childpos) (heap !!! rightpos))
          then rightpos else childpos in
        siftup_loop fuel' (<[pos := heap !!! childpos]> heap) endpos childpos
      else (heap, pos)
  end.

Definition siftup (heap : list A) (pos : nat) : list A :=
  let endpos := length heap in
  let startpos := pos in
  let newitem := heap !!! pos in
  let '(heap, pos) := siftup_loop endpos heap endpos pos in
  let heap := <[pos := newitem]> heap in
  siftdown heap startpos pos.

(** [heappush(heap, item)]: append, then sift the new item towards the
    root. *)
Definition heappush (heap : list A) (item : A) : list A :=
  let heap := heap ++ [item] in
  siftdown heap 0 (length heap - 1).

(** [heappop(heap)]: [None] stands for the [IndexError] of [heap.pop()]
    on an empty list. *)
Definition heappop (heap : list A) : option (A * list A) :=
  match last heap with
  | None => None
  | Some lastelt =>
      let heap := removelast heap in
      match heap with
      | [] => Some (lastelt, [])
      | returnitem :: _ =>
          let heap := <[0%nat := lastelt]> heap in
          Some (returnitem, siftup heap 0)
      end
  end.

(** The order [a <= b] derived from [<] the way the library's invariant
    states it ([heap[k] <= heap[2*k+1]] is never tested; the code only
    ever asks whether an item is smaller than another). *)
Definition item_le (a b : A) : Prop := lt b a = false.

(** The heap invariant: no item is smaller than its parent. *)
Definition is_heap (heap : list A) : Prop :=
  ∀ i, (0 < i < length heap)%nat → item_le (heap !!! ((i - 1) / 2)%nat) (heap !!! i).

(** The state of a sift with the item [newitem] in hand and a hole at
    [pos]: every parent/child pair that avoids the hole is ordered, and the
    children of the hole are not smaller than the hole's parent. *)
Definition down_ok (heap : list A) (pos : nat) : Prop :=
  (pos < length heap)%nat
  ∧ (∀ i, (0 < i < length heap)%nat → i ≠ pos → ((i - 1) / 2)%nat ≠ pos →
       item_le (heap !!! ((i - 1) / 2)%nat) (heap !!! i))
  ∧ (∀ i, (0 < i < length heap)%nat → ((i - 1) / 2)%nat = pos → (0 < pos)%nat →
       item_le (heap !!! ((pos - 1) / 2)%nat) (heap !!! i)).

(** In addition the item in hand is not larger than the hole's children. *)
Definition hole_ok (heap : list A) (newitem : A) (pos : nat) : Prop :=
  down_ok heap pos
  ∧ (∀ i, (0 < i < length heap)%nat → ((i - 1) / 2)%nat = pos →
       item_le newitem (heap !!! i)).
End Heapq.
End heapq.

(* ===================================================================== *)
(** ** Data model *)
(* ===================================================================== *)

(** A grid position [(row, column)] (a Python tuple of ints). *)
Abbreviation Position := (Z * Z)%type.

(** A duplicate-detection key: [(position, frozenset of dirty cells)]. *)
Abbreviation Key := (Position * gset Position)%type.

(** [class RobotState]: position, remaining dirty cells (a frozenset),
    and the list of action labels taken so far. *)
Record RobotState := mkRobotState {
  position : Position;
  dirty_cells : gset Position;
  path : list string
}.

Global Instance RobotState_inhabited : Inhabited RobotState :=
  populate (mkRobotState (0, 0) ∅ []).

(** [RobotState.__lt__]:
    [len(self.dirty_cells) < len(other.dirty_cells)]. *)
Definition RobotState_lt (self other : RobotState) : bool :=
  bool_decide (size (dirty_cells self) < size (dirty_cells other))%nat.

(** The key under which a state is recorded in [explored]. *)
Definition key_of (s : RobotState) : Key := (position s, dirty_cells s).

(** A frontier entry of [ucs]: the tuple [(len(path), state)]. *)
Abbreviation Entry := (nat * RobotState)%type.

(** Python's [<] on such tuples: the first components decide unless they
    are equal, in which case the states are compared with [__lt__]
    ([RobotState] has no [__eq__]; for one and the same object [__lt__] is
    false as well, so identity needs no separate case). *)
Definition entry_lt (a b : Entry) : bool :=
  bool_decide (a.1 < b.1)%nat
  || (bool_decide (a.1 = b.1) && RobotState_lt a.2 b.2).

(** The grid: [List[List[str]]], one character per cell. *)
Abbreviation World := (list (list ascii)).

(** [world[nr][nc]]; [None] is Python's [IndexError]. Only used with
    non-negative indices (the bounds test comes first in the source). *)
Definition cell (world : World) (nr nc : Z) : option ascii :=
  row ← world !! Z.to_nat nr; row !! Z.to_nat nc.

(** The [directions] dictionary, in insertion (= iteration) order. *)
Definition directions : list (string * (Z * Z)) :=
  [("N", (-1, 0)); ("S", (1, 0)); ("E", (0, 1)); ("W", (0, -1))]%string.

(** How a run ends. [Solved]: the path was printed with both counters and
    the function returned. [Exhausted]: the failure message and counters
    were printed and [sys.exit(1)] was called. [IndexError]: a grid lookup
    raised (a grid smaller than [rows] x [cols]). [OutOfFuel] belongs to
    the model only: the loop bound given to the model was too small. *)
Inductive Result :=
  | Solved (actions : list string) (gen exp : nat)
  | Exhausted (gen exp : nat)
  | IndexError
  | OutOfFuel.

(** The process exit status a finished run leads to. *)
Definition exit_status (r : Result) : option Z :=
  match r with
  | Solved _ _ _ => Some 0
  | Exhausted _ _ => Some 1
  | IndexError => Some 1
  | OutOfFuel => None
  end.

(* ===================================================================== *)
(** ** Loading a world *)
(* ===================================================================== *)

(** The inner loop of [read_input] over one row: the start marker is
    recorded and replaced by an empty cell, dirty cells are collected. *)
Fixpoint scan_row (rind cind : Z) (row : list ascii)
    (robot_pos : option Position) (dirty : gset Position)
    : list ascii * option Position * gset Position :=
  match row with
  | [] => ([], robot_pos, dirty)
  | ch :: rest =>
      if bool_decide (ch = "@"%char) then
        let '(row', rp, d) := scan_row rind (cind + 1) rest (Some (rind, cind)) dirty in
        ("_"%char :: row', rp, d)
      else if bool_decide (ch = "*"%char) then
        let '(row', rp, d) := scan_row rind (cind + 1) rest robot_pos (dirty ∪ {[ (rind, cind) ]}) in
        (ch :: row', rp, d)
      else
        let '(row', rp, d) := scan_row rind (cind + 1) rest robot_pos dirty in
        (ch :: row', rp, d)
  end.

(** The outer loop [for rind in range(rows)]; [None] is the [IndexError]
    of [world_lines[rind]] when the file has fewer than [rows] lines. *)
Fixpoint scan_rows (n : nat) (rind : Z) (world_lines : list string)
    (grid : World) (robot_pos : option Position) (dirty : gset Position)
    : option (World * option Position * gset Position) :=
  match n with
  | O => Some (grid, robot_pos, dirty)
  | S n' =>
      line ← world_lines !! Z.to_nat rind;
      let '(row, rp, d) := scan_row rind 0 (String.list_ascii_of_string line) robot_pos dirty in
      scan_rows n' (rind + 1) world_lines (grid ++ [row]) rp d
  end.

(** [read_input] once the file is read and its first two lines are
    parsed: [cols] and [rows] are the two numbers, [world_lines] the lines
    after them. The source returns [cols] and [rows] unchanged along with
    the three values below. *)
Definition read_input (cols rows : Z) (world_lines : list string)
    : option (World * option Position * gset Position) :=
  scan_rows (Z.to_nat rows) 0 world_lines [] None ∅.

(* ===================================================================== *)
(** ** The search loop *)
(* ===================================================================== *)

(** The vacuum step of both loops: a state standing on a dirty cell is
    replaced by the state with that cell removed and ["V"] appended. *)
Definition vacuum (cur : RobotState) : RobotState :=
  if decide (position cur ∈ dirty_cells cur) then
    let new_dirty := dirty_cells cur ∖ {[ position cur ]} in
    mkRobotState (position cur) new_dirty (path cur ++ ["V"%string])
  else cur.

(** The loops of [ucs] (lines 73-101) and [dfs] (lines 119-149) are the
    same text up to the frontier operations; the loop is written once over
    [push] and [pop] and instantiated twice below. *)
Section Search.
Context {F : Type}.
Variable push : F → RobotState → F.
Variable pop : F → option (RobotState * F).
Variables (cols rows : Z) (world : World).

(** The variables of a running loop. *)
Record SearchState := mkSearchState {
  frontier : F;
  explored : gset Key;
  gen : nat;
  exp : nat
}.

(** The test guarding successor creation:
    [0 <= nr < rows and 0 <= nc < cols and world[nr][nc] != "#"];
    [None] when the lookup raises. *)
Definition passable (nr nc : Z) : option bool :=
  if bool_decide (0 ≤ nr < rows) && bool_decide (0 ≤ nc < cols) then
    ch ← cell world nr nc; Some (bool_decide (ch ≠ "#"%char))
  else Some false.

(** One iteration of [for action, (dr, dc) in directions.items()], on the
    frontier, the explored set and the generated counter; [None] when a
    grid lookup raised in this or an earlier iteration. *)
Definition generate (r c : Z) (cur : RobotState)
    (acc : option (F * gset Key * nat)) (d : string * (Z * Z))
    : option (F * gset Key * nat) :=
  '(fr, explored, gen) ← acc;
  let '(action, (dr, dc)) := d in
  let nr := r + dr in
  let nc := c + dc in
  ok ← passable nr nc;
  if ok : bool then
    let new_state := mkRobotState (nr, nc) (dirty_cells cur) (path cur ++ [action]) in
    if decide ((position new_state, dirty_cells new_state) ∈ explored)
    then Some (fr, explored, gen)
    else Some (push fr new_state,
               explored ∪ {[ (position new_state, dirty_cells new_state) ]},
               (gen + 1)%nat)
  else Some (fr, explored, gen).

(** One iteration of the [while] loop: either the run ends with a result,
    or the loop variables are updated. *)
Definition step (st : SearchState) : Result + SearchState :=
  match pop (frontier st) with
  | None => inl (Exhausted (gen st) (exp st))
  | Some (cur, fr) =>
      let exp := (exp st + 1)%nat in
      let '(r, c) := position cur in
      let cur := vacuum cur in
      if decide (dirty_cells cur = ∅) then inl (Solved (path cur) (gen st) exp)
      else
        match foldl (generate r c cur) (Some (fr, explored st, gen st)) directions with
        | None => inl IndexError
        | Some (fr, explored, gen) => inr (mkSearchState fr explored gen exp)
        end
  end.

(** The [while] loop, bounded by [fuel] iterations. *)
Fixpoint search_loop (fuel : nat) (st : SearchState) : Result :=
  match fuel with
  | O => OutOfFuel
  | S fuel' =>
      match step st with
      | inl r => r
      | inr st' => search_loop fuel' st'
      end
  end.

(** The nodes popped by the first [fuel] iterations, in order. *)
Fixpoint popped (fuel : nat) (st : SearchState) : list RobotState :=
  match fuel with
  | O => []
  | S fuel' =>
      match pop (frontier st) with
      | None => []
      | Some (cur, _) =>
          cur :: match step st with
                 | inl _ => []
                 | inr st' => popped fuel' st'
                 end
      end
  end.
End Search.

Arguments mkSearchState {F}.
Arguments frontier {F}.
Arguments explored {F}.
Arguments gen {F}.
Arguments exp {F}.

(** *** Uniform-cost search: a [heapq] of [(len(path), state)] tuples *)

Definition ucs_push (pq : list Entry) (s : RobotState) : list Entry :=
  heapq.heappush entry_lt pq (length (path s), s).

Definition ucs_pop (pq : list Entry) : option (RobotState * list Entry) :=
  '(e, pq) ← heapq.heappop entry_lt pq; Some (e.2, pq).

Definition ucs_init (start : RobotState) : SearchState (F := list Entry) :=
  mkSearchState (heapq.heappush entry_lt [] (0%nat, start)) ∅ 0%nat 0%nat.

Definition ucs (cols rows : Z) (world : World) (start : RobotState)
    (fuel : nat) : Result :=
  search_loop ucs_push ucs_pop cols rows world fuel (ucs_init start).

(** *** Depth-first search: a list used as a stack *)

Definition dfs_push (stack : list RobotState) (s : RobotState) : list RobotState :=
  stack ++ [s].

Definition dfs_pop (stack : list RobotState) : option (RobotState * list RobotState) :=
  cur ← last stack; Some (cur, removelast stack).

Definition dfs_init (start : RobotState) : SearchState (F := list RobotState) :=
  mkSearchState [start] ∅ 0%nat 0%nat.

Definition dfs (cols rows : Z) (world : World) (start : RobotState)
    (fuel : nat) : Result :=
  search_loop dfs_push dfs_pop cols rows world fuel (dfs_init start).

(** [main] on a file already read: the strategy chosen on the command
    line is [search] ([ucs] for "uniform-cost", [dfs] for "depth-first").
    [None] when reading raises or the file has no start marker (the source
    then fails on [r, c = cur.position]). *)
Definition main (search : Z → Z → World → RobotState → nat → Result)
    (cols rows : Z) (world_lines : list string) (fuel : nat) : option Result :=
  '(grid, robot_pos, dirty) ← read_input cols rows world_lines;
  pos ← robot_pos;
  Some (search cols rows grid (mkRobotState pos dirty []) fuel).


(* ===================================================================== *)
(** ** Worlds, successors and the replay of action sequences *)
(* ===================================================================== *)

(** A validated world: a rectangular grid of [rows] x [cols] cells. *)
Definition wf_world (cols rows : Z) (world : World) : Prop :=
  length world = Z.to_nat rows
  ∧ Forall (λ row, length row = Z.to_nat cols) world.

(** The successor state created for one entry of [directions] (the
    [new_state] of the source), if the guard holds; the outer [None] is a
    raising lookup. *)
Definition successor (cols rows : Z) (world : World) (cur : RobotState)
    (d : string * (Z * Z)) : option (option RobotState) :=
  let '(action, (dr, dc)) := d in
  let nr := (position cur).1 + dr in
  let nc := (position cur).2 + dc in
  ok ← passable cols rows world nr nc;
  Some (if ok : bool
        then Some (mkRobotState (nr, nc) (dirty_cells cur) (path cur ++ [action]))
        else None).

(** The successor states a list of direction entries leads to, in order;
    [None] if a lookup raises. *)
Definition successors_of (cols rows : Z) (world : World) (cur : RobotState)
    (ds : list (string * (Z * Z))) : option (list RobotState) :=
  omap id <$> mapM (successor cols rows world cur) ds.

(** All successor states of [cur], in the order of [directions]. *)
Definition successors (cols rows : Z) (world : World) (cur : RobotState)
    : option (list RobotState) :=
  successors_of cols rows world cur directions.

(** The offset of a move label. *)
Definition delta (a : string) : option (Z * Z) :=
  x ← list_find (λ d : string * (Z * Z), d.1 = a) directions; Some x.2.2.

(** The effect of one action on [(position, dirty set)]: ["V"] removes the
    current position from the dirty set; a move label shifts the position
    by one cell and is only possible into a cell that is within the bounds
    and not a wall. Anything else is not an action. *)
Definition act (cols rows : Z) (world : World) (s : Key) (a : string)
    : option Key :=
  if decide (a = "V"%string) then Some (s.1, s.2 ∖ {[ s.1 ]})
  else
    '(dr, dc) ← delta a;
    let nr := s.1.1 + dr in
    let nc := s.1.2 + dc in
    if decide (passable cols rows world nr nc = Some true)
    then Some ((nr, nc), s.2) else None.

(** Replaying an action sequence; [None] if some move is not possible. *)
Fixpoint replay (cols rows : Z) (world : World) (s : Key)
    (actions : list string) : option Key :=
  match actions with
  | [] => Some s
  | a :: rest => s' ← act cols rows world s a; replay cols rows world s' rest
  end.

(** [actions] is a legal action sequence from [s] that leaves no dirty
    cell. *)
Definition cleans (cols rows : Z) (world : World) (s : Key)
    (actions : list string) : Prop :=
  ∃ p, replay cols rows world s actions = Some (p, ∅).

(** A cell all of whose neighbours inside the grid are walls. *)
Definition enclosed (cols rows : Z) (world : World) (p : Position) : Prop :=
  ∀ a dr dc, (a, (dr, dc)) ∈ directions →
    passable cols rows world (p.1 + dr) (p.2 + dc) = Some false.

(** The cells of the grid, and all candidate keys over an initial dirty
    set: grid cells paired with subsets of the dirty set. *)
Definition grid_cells (cols rows : Z) : list Position :=
  r ← seqZ 0 rows; c ← seqZ 0 cols; [(r, c)].

Fixpoint sublists {A} (l : list A) : list (list A) :=
  match l with
  | [] => [[]]
  | x :: l => sublists l ++ (cons x <$> sublists l)
  end.

Definition key_space (cols rows : Z) (dirty : gset Position) : list Key :=
  p ← grid_cells cols rows;
  d ← sublists (elements dirty);
  [(p, list_to_set d)].

(** The number of loop iterations after which every run has ended. *)
Definition fuel_bound (cols rows : Z) (dirty : gset Position) : nat :=
  (2 + Z.to_nat rows * Z.to_nat cols * 2 ^ size dirty)%nat.

(* ===================================================================== *)
(** ** Invariants of the search loop *)
(* ===================================================================== *)

Section Invariants.
Context {F : Type}.
Variable push : F → RobotState → F.
Variable pop : F → option (RobotState * F).
(** The states held by a frontier, and the frontier's own invariant. *)
Variable elems : F → list RobotState.
Variable fr_ok : F → Prop.
Variables (cols rows : Z) (world : World).
(** The key of the start state. *)
Variable k0 : Key.

(** What the loop needs from its frontier: [push] adds one state, [pop]
    removes one, and only an empty frontier cannot be popped. *)
Record frontier_laws : Prop := {
  fl_push_ok : ∀ fr n, fr_ok fr → fr_ok (push fr n);
  fl_push_elems : ∀ fr n, fr_ok fr → elems (push fr n) ≡ₚ n :: elems fr;
  fl_pop_ok : ∀ fr n fr', fr_ok fr → pop fr = Some (n, fr') → fr_ok fr';
  fl_pop_elems : ∀ fr n fr',
    fr_ok fr → pop fr = Some (n, fr') → elems fr ≡ₚ n :: elems fr';
  fl_pop_None : ∀ fr, pop fr = None → elems fr = []
}.

(** A set [C] of keys that were expanded without reaching the goal: after
    the vacuum step some dirt is left, and every possible move leads to a
    key recorded in [X]. *)
Definition closed_under (C X : gset Key) : Prop :=
  ∀ p D, (p, D) ∈ C →
    D ∖ {[ p ]} ≠ ∅
    ∧ ∀ a dr dc, (a, (dr, dc)) ∈ directions →
        passable cols rows world (p.1 + dr) (p.2 + dc) = Some true →
        ((p.1 + dr, p.2 + dc), D ∖ {[ p ]}) ∈ X.

(** The loop invariant shared by both strategies. *)
Record inv (st : SearchState (F := F)) : Prop := {
  inv_ok : fr_ok (frontier st);
  inv_sound : ∀ n, n ∈ elems (frontier st) →
    replay cols rows world k0 (path n) = Some (key_of n);
  inv_space : ∀ k, k ∈ explored st → k ∈ key_space cols rows k0.2;
  inv_gen : gen st = size (explored st);
  inv_exp : (exp st + length (elems (frontier st)) = gen st + 1)%nat;
  inv_closed : ∃ C : gset Key,
    closed_under C (explored st)
    ∧ ∀ k, k ∈ explored st ∨ k = k0 →
        k ∈ C ∨ ∃ n, n ∈ elems (frontier st) ∧ key_of n = k
}.

(** The quantity that decreases by one in every iteration. *)
Definition potential (st : SearchState (F := F)) : nat :=
  (length (elems (frontier st))
   + (length (key_space cols rows k0.2) - size (explored st)))%nat.
End Invariants.

(** The states held by the two frontiers. *)
Definition ucs_elems (pq : list Entry) : list RobotState := pq.*2.
Definition dfs_elems (stack : list RobotState) : list RobotState := stack.

(** The number of states of [l] with key [k]. *)
Definition key_count (k : Key) (l : list RobotState) : nat :=
  length (filter (λ n, key_of n = k) l).

(** The counters a finished run prints: nodes generated, nodes expanded. *)
Definition counters (r : Result) : option (nat * nat) :=
  match r with
  | Solved _ g e => Some (g, e)
  | Exhausted g e => Some (g, e)
  | _ => None
  end.

(** What a run of either strategy from the start state
    [RobotState(pos, dirty, [])] can end with: a sequence that cleans, or
    exhaustion when nothing cleans, both with bounded counters; a raised
    lookup only on a grid that is not validated; and the model's loop
    bound is only hit below [fuel_bound]. *)
Definition run_ok (cols rows : Z) (world : World) (pos : Position)
    (dirty : gset Position) (fuel : nat) (r : Result) : Prop :=
  let space := (Z.to_nat rows * Z.to_nat cols * 2 ^ size dirty)%nat in
  match r with
  | Solved acts g e =>
      cleans cols rows world (pos, dirty) acts ∧ (g ≤ space)%nat ∧ (e ≤ g + 1)%nat
  | Exhausted g e =>
      (∀ acts, ¬ cleans cols rows world (pos, dirty) acts)
      ∧ (g ≤ space)%nat ∧ (e ≤ g + 1)%nat
  | IndexError => ¬ wf_world cols rows world
  | OutOfFuel => (fuel < fuel_bound cols rows dirty)%nat
  end.

(** ** Small worlds used as examples *)

(** The world ["_*@"]: one row, the start at column 2 (already replaced by
    an empty cell), a dirty cell at column 1. *)
Definition tiny_world : World := [["_"; "*"; "_"]]%char.
Definition tiny_dirty : gset Position := {[ (0, 1) ]}.

(** The world ["@#*"]: the dirty cell at column 2 is behind a wall. *)
Definition walled_world : World := [["_"; "#"; "*"]]%char.
Definition walled_dirty : gset Position := {[ (0, 2) ]}.

(** The world ["*_@"]: the dirty cell is two moves to the west. *)
Definition far_world : World := [["*"; "_"; "_"]]%char.
Definition far_dirty : gset Position := {[ (0, 0) ]}.

(** ** The successor rule in the specification's words *)

(** The specification's [successors(state, world)]: for North, South,
    East and West in this order, the state one cell further if the target
    lies within the grid bounds and is not a wall; it keeps the dirty set
    and gets the direction label appended to its actions. *)
Definition successors_spec (cols rows : Z) (world : World) (s : RobotState)
    : list RobotState :=
  omap (λ '(label, (dr, dc)),
          let target := ((position s).1 + dr, (position s).2 + dc) in
          if bool_decide (0 ≤ target.1 < rows ∧ 0 ≤ target.2 < cols
                          ∧ cell world target.1 target.2 ≠ Some "#"%char)
          then Some (mkRobotState target (dirty_cells s) (path s ++ [label]))
          else None)
       [("N", (-1, 0)); ("S", (1, 0)); ("E", (0, 1)); ("W", (0, -1))]%string.

(** ** Priority queues built by the two heapq operations *)

Inductive built : list Entry → Prop :=
  | built_nil : built []
  | built_push pq e : built pq → built (heapq.heappush entry_lt pq e)
  | built_pop pq e rest :
      built pq → heapq.heappop entry_lt pq = Some (e, rest) → built rest.

(** A node standing on the dirty cell of [tiny_world], and a loop state of
    the depth-first strategy holding just this node. *)
Definition dirty_node : RobotState := mkRobotState (0, 1) tiny_dirty ["W"%string].
Definition dirty_node_state : SearchState (F := list RobotState) :=
  mkSearchState [dirty_node] ∅ 1%nat 1%nat.

(** Two nodes with equal path length, with one and with two dirty cells
    left. *)
Definition one_dirty_node : RobotState := mkRobotState (0, 0) tiny_dirty ["W"%string].
Definition two_dirty_node : RobotState :=
  mkRobotState (5, 5) ({[ (0, 0) ]} ∪ tiny_dirty) ["N"%string].

(* ===================================================================== *)
(** ** The invariant behind the optimality of uniform-cost search *)
(* ===================================================================== *)

(** [G] gives every recorded key the path length with which it was first
    generated (0 for the start key); [C] holds the keys already expanded at
    that length. Popping the entry that is least for [entry_lt] keeps:
    - every recorded key is expanded or waits in the queue at length [G];
    - the successors of an expanded key are recorded, at a length that is
      at most the one reached through this key;
    - no entry of the queue could still improve on a recorded length
      ([opt_rank]: lengths are compared after adding the number of dirty
      cells left, which is what the tie-break on equal lengths is for). *)
Record opt_inv (cols rows : Z) (world : World) (k0 : Key)
    (G : Key → nat) (C : gset Key) (st : SearchState (F := list Entry))
    : Prop := {
  opt_heap : heapq.is_heap entry_lt (frontier st);
  opt_len : ∀ e, e ∈ frontier st → e.1 = length (path e.2);
  opt_start : G k0 = 0%nat;
  opt_started : k0 ∈ C ∨ explored st = ∅;
  opt_keys : ∀ e, e ∈ frontier st →
    key_of e.2 ∈ explored st ∨ key_of e.2 = k0;
  opt_cost : ∀ e, e ∈ frontier st → e.1 = G (key_of e.2) ∨ key_of e.2 ∈ C;
  opt_closed_keys : ∀ k, k ∈ C → k ∈ explored st ∨ k = k0;
  opt_cover : ∀ k, k ∈ explored st ∨ k = k0 →
    k ∈ C ∨ ∃ e, e ∈ frontier st ∧ key_of e.2 = k ∧ e.1 = G k;
  opt_closed : ∀ p D, (p, D) ∈ C →
    D ∖ {[ p ]} ≠ ∅
    ∧ ∀ a dr dc, (a, (dr, dc)) ∈ directions →
        passable cols rows world (p.1 + dr) (p.2 + dc) = Some true →
        ((p.1 + dr, p.2 + dc), D ∖ {[ p ]}) ∈ explored st
        ∧ (G (((p.1 + dr)%Z, (p.2 + dc)%Z), D ∖ {[ p ]})
           ≤ G (p, D) + (if decide (p ∈ D) then 1 else 0) + 1)%nat;
  opt_rank : ∀ k e, k ∈ explored st ∨ k = k0 → e ∈ frontier st →
    (size k.2 ≤ size (dirty_cells e.2))%nat →
    (G k + size k.2 ≤ e.1 + size (dirty_cells e.2) + 1)%nat
}.

(* ===================================================================== *)
(** ** The program: command line, world file, choice of the strategy *)
(* ===================================================================== *)

(** How the process ends. [Usage]: the usage line was printed and
    [sys.exit(1)] called. [Raised]: an exception left [main] (the file
    cannot be opened, a line is missing or is not a number, or the start
    position is [None] when the loop unpacks it). [InvalidAlgorithm]: the
    message asking for a valid algorithm was printed, then [sys.exit(1)].
    [Ran r]: the chosen strategy ran and ended with [r]. *)
Inductive Outcome :=
  | Usage
  | Raised
  | InvalidAlgorithm
  | Ran (r : Result).

(** The exit status of the process. *)
Definition status (o : Outcome) : option Z :=
  match o with
  | Ran r => exit_status r
  | _ => Some 1
  end.

Section Program.
(** Python's [int] on a string ([None]: [ValueError]), and the file
    system: [file_lines p] is [f.read().splitlines()] for a file that can
    be opened. *)
Variable int : string → option Z.
Variable file_lines : string → option (list string).

(** [read_input(file_path)], from the file to the returned tuple. *)
Definition read_input_file (file_path : string)
    : option (Z * Z * World * option Position * gset Position) :=
  lines ← file_lines file_path;
  l0 ← lines !! 0%nat; cols ← int l0;
  l1 ← lines !! 1%nat; rows ← int l1;
  let world_lines := drop 2 lines in
  '(grid, robot_pos, dirty) ← read_input cols rows world_lines;
  Some (cols, rows, grid, robot_pos, dirty).

(** [main()], with [sys.argv] as a list. The file is read before the
    algorithm name is looked at. *)
Definition main_argv (argv : list string) (fuel : nat) : Outcome :=
  if decide (length argv ≠ 3%nat) then Usage
  else
    match read_input_file (argv !!! 2%nat) with
    | None => Raised
    | Some (col, row, world, robot_pos, dirty) =>
        let run (search : Z → Z → World → RobotState → nat → Result) :=
          match robot_pos with
          | None => Raised
          | Some pos => Ran (search col row world (mkRobotState pos dirty []) fuel)
          end in
        if decide (argv !!! 1%nat = "uniform-cost"%string) then run ucs
        else if decide (argv !!! 1%nat = "depth-first"%string) then run dfs
        else InvalidAlgorithm
    end.
End Program.

(** A file system holding one world file, and the values of [int] on its
    first two lines. *)
Definition tiny_files (file_path : string) : option (list string) :=
  if decide (file_path = "tiny-1.txt"%string)
  then Some ["3"; "1"; "_*@"]%string else None.
Definition tiny_int (s : string) : option Z :=
  if decide (s = "3"%string) then Some 3
  else if decide (s = "1"%string) then Some 1 else None.
Definition tiny_argv : list string := ["planner.py"; "uniform-cost"; "tiny-1.txt"]%string.

(** ** More small worlds and queues used as examples *)

(** Two world lines with a start marker each. *)
Definition two_starts : list string := ["@_"; "_@"]%string.

(** The world ["_*_"], ["_#@"], ["___"] (start marker replaced): the
    dirty cell is two moves from the start, or six around the wall. *)
Definition detour_world : World :=
  [["_"; "*"; "_"]; ["_"; "#"; "_"]; ["_"; "_"; "_"]]%char.

(** A priority queue of two entries with equal path length. *)
Definition two_entry_queue : list Entry :=
  [(1%nat, one_dirty_node); (1%nat, two_dirty_node)].

(** The start state of [tiny_world]. *)
Definition tiny_start : RobotState := mkRobotState (0, 2) tiny_dirty [].

(* ===================================================================== *)
(** ** Facts about heapq: the heap invariant and the least item *)
(* ===================================================================== *)

Local Arguments Nat.div : simpl never.

Module heapq_facts.
Section Facts.
Context {A : Type} `{Inhabited A}.
Variable lt : A → A → bool.
(** What the proofs need of [<]: it is asymmetric, and "not smaller than"
    is transitive (a strict weak order). *)
Hypothesis ilt_asym : ∀ a b, lt a b = true → lt b a = false.
Hypothesis ile_trans : ∀ a b c,
  heapq.item_le lt a b → heapq.item_le lt b c → heapq.item_le lt a c.

Local Abbreviation ile := (heapq.item_le lt).
Local Abbreviation is_heap := (heapq.is_heap lt).
Local Abbreviation hole_ok := (heapq.hole_ok lt).
Local Abbreviation down_ok := (heapq.down_ok lt).

(** Reading a list after an update, in range. *)
Ltac upd :=
  repeat (rewrite ?length_insert, ?list_lookup_total_insert_eq,
            ?list_lookup_total_insert_ne by lia).

Lemma lookup_total_Some (l : list A) i : (i < length l)%nat → l !! i = Some (l !!! i).
Proof using Type. intros. by apply list_lookup_lookup_total_lt. Qed.

(** The loops run to completion within the iteration counts the
    definitions give them: more iterations change nothing. *)
Lemma siftdown_loop_fuel fuel : ∀ heap newitem startpos pos,
  (pos ≤ fuel)%nat →
  heapq.siftdown_loop lt fuel heap newitem startpos pos
  = heapq.siftdown_loop lt pos heap newitem startpos pos.
Proof using Type.
  induction fuel as [fuel IH] using lt_wf_ind. intros heap newitem startpos pos Hf.
  destruct fuel as [|fuel], pos as [|pos]; try done; try lia.
  cbn [heapq.siftdown_loop]. case_bool_decide; [|done].
  destruct (lt newitem _); [|done].
  rewrite (IH fuel) by lia. symmetry. apply IH; lia.
Qed.

Lemma siftup_loop_fuel fuel : ∀ heap endpos pos,
  (endpos ≤ fuel + pos)%nat →
  heapq.siftup_loop lt fuel heap endpos pos
  = heapq.siftup_loop lt (endpos - pos) heap endpos pos.
Proof using Type.
  induction fuel as [fuel IH] using lt_wf_ind. intros heap endpos pos Hf.
  destruct fuel as [|fuel].
  - by replace (endpos - pos)%nat with 0%nat by lia.
  - destruct (endpos - pos)%nat as [|n] eqn:Hn.
    + simpl. case_bool_decide; [exfalso; lia|done].
    + cbn [heapq.siftup_loop]. case_bool_decide; [|done].
      set (c := if _ && _ then _ else _).
      assert (2 * pos + 1 ≤ c ≤ 2 * pos + 2)%nat by (subst c; destruct (_ && _); lia).
      rewrite (IH fuel) by lia. symmetry. rewrite (IH n) by lia.
      by rewrite length_insert || done.
Qed.

Lemma siftdown_loop_length fuel : ∀ heap newitem startpos pos,
  length (heapq.siftdown_loop lt fuel heap newitem startpos pos) = length heap.
Proof using Type.
  induction fuel as [|fuel IH]; intros; simpl; [by upd|].
  case_bool_decide; [|by upd].
  destruct (lt _ _); [|by upd]. rewrite IH. by upd.
Qed.

Lemma siftdown_loop_perm fuel : ∀ heap newitem startpos pos,
  (pos < length heap)%nat →
  heapq.siftdown_loop lt fuel heap newitem startpos pos ≡ₚ <[pos := newitem]> heap.
Proof using Type.
  induction fuel as [|fuel IH]; intros heap newitem startpos pos Hpos; simpl; [done|].
  case_bool_decide; [|done].
  destruct (lt _ _); [|done].
  rewrite IH by (upd; lia).
  rewrite <- (list_insert_insert_eq heap pos (heap !!! ((pos - 1) / 2)%nat) newitem) at 1.
  apply Permutation_insert_swap.
  - rewrite list_lookup_insert_eq by lia. done.
  - rewrite list_lookup_insert_ne by lia. apply lookup_total_Some. lia.
Qed.

Lemma hole_fill heap newitem pos :
  hole_ok heap newitem pos →
  (pos = 0%nat ∨ ile (heap !!! ((pos - 1) / 2)%nat) newitem) →
  is_heap (<[pos := newitem]> heap).
Proof using Type.
  intros [(Hpos & Hedge & Hgrand) Hkids] Htop i Hi. rewrite length_insert in Hi.
  destruct (decide (i = pos)) as [->|Hne].
  - upd. destruct Htop as [->|Htop]; [lia|]. done.
  - destruct (decide (((i - 1) / 2)%nat = pos)) as [Hp|Hp].
    + rewrite Hp. upd. by apply Hkids.
    + upd. by apply Hedge.
Qed.

Lemma hole_up heap newitem pos :
  hole_ok heap newitem pos → (0 < pos)%nat →
  lt newitem (heap !!! ((pos - 1) / 2)%nat) = true →
  hole_ok (<[pos := heap !!! ((pos - 1) / 2)%nat]> heap) newitem ((pos - 1) / 2)%nat.
Proof.
  intros [(Hpos & Hedge & Hgrand) Hkids] H0 Hlt.
  set (pp := ((pos - 1) / 2)%nat) in *.
  assert (pp < pos)%nat by (subst pp; lia).
  repeat split; rewrite ?length_insert.
  - lia.
  - intros i Hi Hne Hpne.
    destruct (decide (i = pos)) as [->|Hip]; [done|].
    destruct (decide (((i - 1) / 2)%nat = pos)) as [Hp|Hp].
    + rewrite Hp. upd. by apply Hgrand.
    + upd. by apply Hedge.
  - intros i Hi Hp Hpp.
    destruct (decide (i = pos)) as [->|Hip].
    + upd. apply Hedge; lia.
    + upd. apply ile_trans with (heap !!! pp).
      * apply Hedge; lia.
      * rewrite <- Hp. apply Hedge; lia.
  - intros i Hi Hp.
    destruct (decide (i = pos)) as [->|Hip].
    + upd. by apply ilt_asym.
    + upd. apply ile_trans with (heap !!! pp).
      * by apply ilt_asym.
      * rewrite <- Hp. apply Hedge; lia.
Qed.

Lemma siftdown_loop_heap fuel : ∀ heap newitem pos,
  (pos ≤ fuel)%nat → hole_ok heap newitem pos →
  is_heap (heapq.siftdown_loop lt fuel heap newitem 0 pos).
Proof.
  induction fuel as [|fuel IH]; intros heap newitem pos Hf Hok; simpl.
  - apply hole_fill; [done|left; lia].
  - case_bool_decide; [|apply hole_fill; [done|left; lia]].
    destruct (lt newitem _) eqn:Hlt.
    + apply IH; [lia|]. by apply hole_up.
    + apply hole_fill; [done|by right].
Qed.

Lemma siftdown_loop_hole fuel : ∀ heap newitem startpos pos x,
  heapq.siftdown_loop lt fuel (<[pos := x]> heap) newitem startpos pos
  = heapq.siftdown_loop lt fuel heap newitem startpos pos.
Proof using Type.
  destruct fuel as [|fuel]; intros; simpl; rewrite ?list_insert_insert_eq; [done|].
  case_bool_decide; [|done].
  rewrite list_lookup_total_insert_ne by lia. done.
Qed.

Lemma siftup_loop_spec fuel : ∀ heap pos,
  (length heap ≤ fuel + pos)%nat → down_ok heap pos →
  ∃ heap' pos',
    heapq.siftup_loop lt fuel heap (length heap) pos = (heap', pos')
    ∧ length heap' = length heap
    ∧ down_ok heap' pos'
    ∧ (length heap ≤ 2 * pos' + 1)%nat
    ∧ ∀ x, <[pos' := x]> heap' ≡ₚ <[pos := x]> heap.
Proof.
  induction fuel as [|fuel IH]; intros heap pos Hf Hok; simpl.
  { destruct Hok as (? & ? & ?). exfalso. lia. }
  case_bool_decide as Hc; [|exists heap, pos; split_and!; [done|done|done|lia|done]].
  set (c := if _ && _ then _ else _).
  destruct Hok as (Hpos & Hedge & Hgrand).
  assert (Hcc : (pos < c < length heap)%nat ∧ ((c - 1) / 2)%nat = pos
                ∧ ∀ i, (0 < i < length heap)%nat → ((i - 1) / 2)%nat = pos →
                       ile (heap !!! c) (heap !!! i)).
  { subst c. destruct (bool_decide _ && negb _) eqn:Hb.
    - apply andb_true_iff in Hb as [Hr Hn]. apply bool_decide_eq_true in Hr.
      apply negb_true_iff in Hn. repeat split; [lia..|].
      intros i Hi Hp. assert (i = 2 * pos + 1 ∨ i = 2 * pos + 1 + 1)%nat as [->| ->] by lia.
      + done.
      + destruct (lt (heap !!! (2 * pos + 1 + 1)%nat) (heap !!! (2 * pos + 1 + 1)%nat)) eqn:E; [|done].
        by apply ilt_asym in E as E'; congruence.
    - repeat split; [lia..|].
      intros i Hi Hp. apply andb_false_iff in Hb.
      assert (i = 2 * pos + 1 ∨ i = 2 * pos + 1 + 1)%nat as [->| ->] by lia.
      + destruct (lt (heap !!! (2 * pos + 1)%nat) (heap !!! (2 * pos + 1)%nat)) eqn:E; [|done].
        by apply ilt_asym in E as E'; congruence.
      + destruct Hb as [Hb|Hb].
        * apply bool_decide_eq_false in Hb. lia.
        * apply negb_false_iff in Hb. by apply ilt_asym. }
  destruct Hcc as (Hclen & Hcp & Hcmin).
  destruct (IH (<[pos := heap !!! c]> heap) c) as (heap' & pos' & Heq & Hlen & Hok' & Hleaf & Hperm).
  - rewrite length_insert. lia.
  - repeat split; rewrite ?length_insert.
    + lia.
    + intros i Hi Hne Hpne.
      destruct (decide (i = pos)) as [->|Hip].
      * upd. apply Hgrand; lia.
      * destruct (decide (((i - 1) / 2)%nat = pos)) as [Hp|Hp].
        -- rewrite Hp. upd. by apply Hcmin.
        -- upd. by apply Hedge.
    + intros i Hi Hp Hc0. rewrite Hcp. upd.
      pose proof (Hedge i) as E. rewrite Hp in E. apply E; lia.
  - rewrite length_insert in Heq. exists heap', pos'. rewrite Heq.
    rewrite length_insert in Hlen, Hleaf. split_and!; [done..|].
    intros x. rewrite Hperm.
    rewrite <- (list_insert_insert_eq heap pos (heap !!! c) x) at 1.
    apply Permutation_insert_swap.
    + rewrite list_lookup_insert_eq by lia. done.
    + rewrite list_lookup_insert_ne by lia. apply lookup_total_Some. lia.
Qed.

Lemma siftup_root heap :
  down_ok heap 0 →
  is_heap (heapq.siftup lt heap 0) ∧ heapq.siftup lt heap 0 ≡ₚ heap.
Proof.
  intros Hok. unfold heapq.siftup.
  destruct (siftup_loop_spec (length heap) heap 0) as (heap' & pos' & Heq & Hlen & Hok' & Hleaf & Hperm);
    [lia|done|].
  rewrite Heq. unfold heapq.siftdown.
  assert (pos' < length heap')%nat by (by destruct Hok').
  rewrite list_lookup_total_insert_eq by done.
  rewrite siftdown_loop_hole. split.
  - apply siftdown_loop_heap; [lia|]. split; [done|].
    intros i Hi Hp. lia.
  - rewrite siftdown_loop_perm by done. rewrite Hperm.
    rewrite list_insert_id; [done|]. apply lookup_total_Some. by destruct Hok.
Qed.

Lemma is_heap_nil : is_heap [].
Proof using Type. intros i Hi. simpl in Hi. lia. Qed.

Lemma heappush_perm heap item : heapq.heappush lt heap item ≡ₚ item :: heap.
Proof using Type.
  unfold heapq.heappush, heapq.siftdown. rewrite length_app. simpl.
  rewrite siftdown_loop_perm by (rewrite length_app; simpl; lia).
  rewrite list_insert_id.
  - by rewrite Permutation_app_comm.
  - apply lookup_total_Some. rewrite length_app. simpl. lia.
Qed.

Lemma heappush_is_heap heap item : is_heap heap → is_heap (heapq.heappush lt heap item).
Proof.
  intros Hh. unfold heapq.heappush, heapq.siftdown. rewrite length_app. simpl.
  replace (length heap + 1 - 1)%nat with (length heap) by lia.
  apply siftdown_loop_heap; [done|].
  repeat split; rewrite ?length_app; simpl.
  - lia.
  - intros i Hi Hne Hp.
    rewrite !lookup_total_app_l by lia. apply Hh. lia.
  - intros i Hi Hp. lia.
  - intros i Hi Hp. lia.
Qed.

Lemma heappop_None heap : heapq.heappop lt heap = None ↔ heap = [].
Proof using Type.
  unfold heapq.heappop. split.
  - destruct (last heap) eqn:E; [by destruct (removelast heap)|].
    by apply last_None in E.
  - by intros ->.
Qed.

Lemma heappop_spec heap x rest :
  is_heap heap → heapq.heappop lt heap = Some (x, rest) →
  is_heap rest ∧ heap ≡ₚ x :: rest ∧ heap !! 0%nat = Some x.
Proof.
  intros Hh. unfold heapq.heappop.
  destruct (last heap) as [lastelt|] eqn:Hlast; [|done].
  apply last_Some in Hlast as [front ->].
  rewrite removelast_last.
  destruct front as [|returnitem t]; intros [= <- <-].
  { split; [apply is_heap_nil|done]. }
  destruct (siftup_root (<[0%nat := lastelt]> (returnitem :: t))) as [Hheap Hperm].
  { repeat split; simpl.
    - lia.
    - intros i Hi Hne Hp. destruct i as [|i]; [done|].
      specialize (Hh (S i)). rewrite length_app in Hh. simpl in Hh.
      destruct (((S i - 1) / 2)%nat) as [|j] eqn:Ej; [done|].
      rewrite <- Ej in *. 
      assert (Hl : ∀ k, (0 < k ≤ length t)%nat →
        (lastelt :: t) !!! k = ((returnitem :: t) ++ [lastelt]) !!! k).
      { intros [|k] Hk; [lia|]. simpl. rewrite lookup_total_app_l by lia. done. }
      rewrite !Hl by lia. apply Hh. lia.
    - lia. }
  split_and!; [done| |done].
  rewrite Hperm. simpl. by rewrite <- Permutation_cons_append.
Qed.

(** The root of a heap is a least item. *)
Lemma is_heap_root heap i :
  is_heap heap → (i < length heap)%nat → ile (heap !!! 0%nat) (heap !!! i).
Proof.
  intros Hh. induction i as [i IH] using lt_wf_ind. intros Hi.
  destruct (decide (i = 0%nat)) as [->|Hne].
  - destruct (lt (heap !!! 0%nat) (heap !!! 0%nat)) eqn:E; [|done].
    apply ilt_asym in E as E'. congruence.
  - apply ile_trans with (heap !!! ((i - 1) / 2)%nat).
    + apply IH; lia.
    + apply Hh. lia.
Qed.

(** A popped item is a least item of the heap. *)
Lemma heappop_min heap x rest y :
  is_heap heap → heapq.heappop lt heap = Some (x, rest) → y ∈ rest → ile x y.
Proof.
  intros Hh Hpop Hy.
  destruct (heappop_spec _ _ _ Hh Hpop) as (_ & Hperm & H0).
  assert (y ∈ heap) as Hin by (rewrite Hperm; by right).
  apply list_elem_of_lookup in Hin as [i Hi].
  pose proof (lookup_lt_Some _ _ _ Hi) as Hlt.
  pose proof (is_heap_root heap i Hh Hlt) as Hle.
  rewrite (list_lookup_total_correct _ _ _ Hi) in Hle.
  by rewrite (list_lookup_total_correct _ _ _ H0) in Hle.
Qed.

End Facts.
End heapq_facts.

(* ===================================================================== *)
(** ** Successor creation and the inner loop *)
(* ===================================================================== *)

Lemma list_filter_iff_in {A} (P Q : A → Prop) `{!∀ x, Decision (P x)}
    `{!∀ x, Decision (Q x)} (l : list A) :
  (∀ x, x ∈ l → P x ↔ Q x) → filter P l = filter Q l.
Proof.
  induction l as [|x l IH]; intros Hl; [done|].
  assert (filter P l = filter Q l) as Hrec.
  { apply IH. intros y Hy. apply Hl. by right. }
  destruct (decide (P x)) as [HP|HP].
  - rewrite !filter_cons_True; [by f_equal|by apply Hl; [left|]|done].
  - rewrite !filter_cons_False; [done| |done]. intros HQ. apply HP, Hl; [by left|done].
Qed.

Section Successors.
Variables (cols rows : Z) (world : World).

Local Abbreviation successor' := (successor cols rows world).
Local Abbreviation passable' := (passable cols rows world).
Local Abbreviation succs := (successors_of cols rows world).

Lemma passable_true nr nc :
  passable' nr nc = Some true →
  0 ≤ nr < rows ∧ 0 ≤ nc < cols ∧ ∃ ch, cell world nr nc = Some ch ∧ ch ≠ "#"%char.
Proof.
  unfold passable. destruct (bool_decide _ && bool_decide _) eqn:E; [|done].
  apply andb_true_iff in E as [?%bool_decide_eq_true ?%bool_decide_eq_true].
  destruct (cell world nr nc) as [ch|]; [|done]. simpl.
  intros [= ?%bool_decide_eq_true]. eauto.
Qed.

Lemma passable_wf nr nc : wf_world cols rows world → is_Some (passable' nr nc).
Proof.
  intros [Hlen Hrows]. unfold passable.
  destruct (bool_decide _ && bool_decide _) eqn:E; [|by eexists].
  apply andb_true_iff in E as [?%bool_decide_eq_true ?%bool_decide_eq_true].
  unfold cell.
  destruct (world !! Z.to_nat nr) as [row|] eqn:Hrow.
  - simpl. rewrite Forall_lookup in Hrows. specialize (Hrows _ _ Hrow).
    destruct (lookup_lt_is_Some_2 row (Z.to_nat nc)) as [ch ->]; [lia|]. by eexists.
  - apply lookup_ge_None in Hrow. lia.
Qed.

Lemma successor_position cur a dr dc n :
  successor' cur (a, (dr, dc)) = Some (Some n) →
  n = mkRobotState ((position cur).1 + dr, (position cur).2 + dc)
        (dirty_cells cur) (path cur ++ [a])
  ∧ passable' ((position cur).1 + dr) ((position cur).2 + dc) = Some true.
Proof.
  unfold successor. destruct (passable' _ _) as [[]|]; simpl; [|done..].
  by intros [= <-].
Qed.


Lemma succs_cons cur d ds :
  succs cur (d :: ds) =
    o ← successor' cur d; l ← succs cur ds;
    Some (match o with Some n => n :: l | None => l end).
Proof.
  unfold successors_of. simpl. destruct (successor' cur d) as [[n|]|]; simpl; [| |done].
  - by destruct (mapM _ ds).
  - by destruct (mapM _ ds).
Qed.

Lemma succs_elem cur ds l n :
  succs cur ds = Some l → n ∈ l →
  ∃ a dr dc, (a, (dr, dc)) ∈ ds ∧ successor' cur (a, (dr, dc)) = Some (Some n).
Proof.
  revert l. induction ds as [|[a [dr dc]] ds IH]; intros l.
  - intros [= <-]. by intros ?%elem_of_nil.
  - rewrite succs_cons. destruct (successor' cur _) as [o|] eqn:Ho; [|done]. simpl.
    destruct (succs cur ds) as [l'|]; [|done]. simpl. intros [= <-] Hn.
    assert (n ∈ l' → ∃ a0 dr0 dc0, (a0, (dr0, dc0)) ∈ (a, (dr, dc)) :: ds
              ∧ successor' cur (a0, (dr0, dc0)) = Some (Some n)).
    { intros Hl. destruct (IH l' eq_refl Hl) as (a0 & dr0 & dc0 & ? & ?).
      exists a0, dr0, dc0. split; [by right|done]. }
    destruct o as [n'|]; [|auto].
    apply elem_of_cons in Hn as [->|Hn]; [|auto].
    exists a, dr, dc. split; [by left|done].
Qed.

Lemma succs_complete cur ds l a dr dc :
  succs cur ds = Some l → (a, (dr, dc)) ∈ ds →
  passable' ((position cur).1 + dr) ((position cur).2 + dc) = Some true →
  mkRobotState ((position cur).1 + dr, (position cur).2 + dc)
    (dirty_cells cur) (path cur ++ [a]) ∈ l.
Proof.
  revert l. induction ds as [|d ds IH]; intros l Hl Hd Hp; [by apply elem_of_nil in Hd|].
  rewrite succs_cons in Hl.
  destruct (successor' cur d) as [o|] eqn:Ho; [|done]. simpl in Hl.
  destruct (succs cur ds) as [l'|]; [|done]. simpl in Hl. injection Hl as <-.
  apply elem_of_cons in Hd as [<-|Hd].
  - unfold successor in Ho. rewrite Hp in Ho. simpl in Ho.
    injection Ho as <-. by left.
  - specialize (IH l' eq_refl Hd Hp). destruct o; [by right|done].
Qed.

Lemma succs_NoDup cur ds l :
  NoDup (ds.*2) → succs cur ds = Some l → NoDup (key_of <$> l).
Proof.
  revert l. induction ds as [|[a [dr dc]] ds IH]; intros l Hnd.
  { intros [= <-]. constructor. }
  apply NoDup_cons in Hnd as [Hnotin Hnd].
  rewrite succs_cons. destruct (successor' cur _) as [o|] eqn:Ho; [|done]. simpl.
  destruct (succs cur ds) as [l'|] eqn:Hl'; [|done]. simpl. intros [= <-].
  specialize (IH l' Hnd eq_refl). destruct o as [n|]; [|done].
  rewrite fmap_cons. apply NoDup_cons. split; [|done].
  intros (m & Hk & Hm)%list_elem_of_fmap.
  destruct (succs_elem _ _ _ _ Hl' Hm) as (a0 & dr0 & dc0 & Hd & Hs).
  apply successor_position in Hs as [-> _].
  apply successor_position in Ho as [-> _].
  injection Hk as ? ?. apply Hnotin. apply list_elem_of_fmap.
  exists (a0, (dr0, dc0)). split; [|done]. simpl. f_equal; lia.
Qed.

End Successors.

Section Generate.
Context {F : Type}.
Variable push : F → RobotState → F.
Variables (cols rows : Z) (world : World).

Local Abbreviation generate' := (generate push cols rows world).
Local Abbreviation successor' := (successor cols rows world).
Local Abbreviation passable' := (passable cols rows world).
Local Abbreviation succs := (successors_of cols rows world).

Lemma foldl_generate_None r c cur ds : foldl (generate' r c cur) None ds = None.
Proof. by induction ds. Qed.

Lemma generate_successor cur fr X g d :
  generate' (position cur).1 (position cur).2 cur (Some (fr, X, g)) d =
    o ← successor' cur d;
    match o with
    | Some n =>
        if decide (key_of n ∈ X) then Some (fr, X, g)
        else Some (push fr n, X ∪ {[ key_of n ]}, (g + 1)%nat)
    | None => Some (fr, X, g)
    end.
Proof.
  destruct d as [action [dr dc]]. unfold generate, successor. simpl.
  destruct (passable' _ _) as [[]|]; done.
Qed.

Lemma foldl_push_generate cur ds : NoDup (ds.*2) → ∀ fr X g,
  foldl (generate' (position cur).1 (position cur).2 cur) (Some (fr, X, g)) ds =
    news ← succs cur ds;
    let fresh := filter (λ n, key_of n ∉ X) news in
    Some (foldl push fr fresh, X ∪ list_to_set (key_of <$> fresh),
          (g + length fresh)%nat).
Proof.
  induction ds as [|[a [dr dc]] ds IH]; intros Hnd fr X g.
  { simpl. do 2 f_equal; [f_equal; set_solver|lia]. }
  apply NoDup_cons in Hnd as [Hnotin Hnd].
  rewrite succs_cons. cbn [foldl]. rewrite generate_successor.
  destruct (successor' cur (a, (dr, dc))) as [o|] eqn:Ho; simpl;
    [|apply foldl_generate_None].
  destruct o as [n|]; [|rewrite IH by done; by destruct (succs cur ds)].
  apply successor_position in Ho as [Hn Hpass].
  destruct (decide (key_of n ∈ X)) as [Hin|Hin].
  - rewrite IH by done. destruct (succs cur ds) as [l|]; [|done]. simpl.
    rewrite filter_cons_False; [done|]. by intros [].
  - rewrite IH by done. destruct (succs cur ds) as [l|] eqn:Hl; [|done]. simpl.
    rewrite filter_cons_True by done. simpl.
    assert (Hf : filter (λ n0, key_of n0 ∉ X ∪ {[key_of n]}) l
                 = filter (λ n0, key_of n0 ∉ X) l).
    { apply list_filter_iff_in. intros m Hm.
      destruct (succs_elem _ _ _ _ _ _ _ Hl Hm) as (a0 & dr0 & dc0 & Hd & Hs).
      apply successor_position in Hs as [-> _]. subst n.
      assert ((dr0, dc0) ≠ (dr, dc)).
      { intros [= -> ->]. apply Hnotin. apply list_elem_of_fmap. by exists (a0, (dr, dc)). }
      unfold key_of. simpl. rewrite not_elem_of_union, not_elem_of_singleton.
      split; [by intros []|]. intros ?. split; [done|]. intros [= ? ?].
      assert (dr0 = dr) by lia. assert (dc0 = dc) by lia. congruence. }
    rewrite Hf. do 2 f_equal; [f_equal; set_solver|lia].
Qed.

End Generate.


(* ===================================================================== *)
(** ** Counting the keys of a world *)
(* ===================================================================== *)

Lemma length_bind_const {A B} (f : A → list B) (l : list A) (n : nat) :
  (∀ x, length (f x) = n) → length (l ≫= f) = (length l * n)%nat.
Proof.
  intros Hf. induction l as [|x l IH]; [done|].
  rewrite bind_cons, length_app, Hf, IH. simpl. lia.
Qed.

Lemma size_le_length `{Countable K} (X : gset K) (l : list K) :
  (∀ k, k ∈ X → k ∈ l) → (size X ≤ length l)%nat.
Proof.
  intros HX. transitivity (size (list_to_set l : gset K)).
  { apply subseteq_size. intros k Hk. apply elem_of_list_to_set. auto. }
  clear. induction l as [|x l IH].
  - rewrite list_to_set_nil, size_empty. simpl. lia.
  - rewrite list_to_set_cons, size_union_alt, size_singleton. simpl.
    assert (size (list_to_set l ∖ {[x]} : gset K) ≤ size (list_to_set l : gset K))%nat.
    { apply subseteq_size. set_solver. }
    lia.
Qed.

Lemma length_sublists {A} (l : list A) : length (sublists l) = (2 ^ length l)%nat.
Proof.
  induction l as [|x l IH]; [done|].
  simpl sublists. rewrite length_app, length_fmap, IH. simpl. lia.
Qed.

Lemma sublists_complete `{Countable K} (l : list K) (D : gset K) :
  D ⊆ list_to_set l → ∃ l', l' ∈ sublists l ∧ list_to_set l' = D.
Proof.
  revert D. induction l as [|x l IH]; intros D HD; simpl in *.
  - exists []. split; [by left|]. set_solver.
  - destruct (IH (D ∖ {[x]})) as (l' & Hl' & Heq); [set_solver|].
    destruct (decide (x ∈ D)) as [Hx|Hx].
    + exists (x :: l'). split.
      * apply elem_of_app. right. apply list_elem_of_fmap. by exists l'.
      * simpl. rewrite Heq. apply set_eq. intros y.
        rewrite elem_of_union, elem_of_singleton, elem_of_difference, elem_of_singleton.
        destruct (decide (y = x)); naive_solver.
    + exists l'. split; [apply elem_of_app; by left|]. rewrite Heq. set_solver.
Qed.

Lemma length_grid_cells cols rows :
  length (grid_cells cols rows) = (Z.to_nat rows * Z.to_nat cols)%nat.
Proof.
  unfold grid_cells. rewrite (length_bind_const _ _ (Z.to_nat cols)).
  - by rewrite length_seqZ.
  - intros r. rewrite (length_bind_const _ _ 1%nat) by done. rewrite length_seqZ. lia.
Qed.

Lemma elem_of_grid_cells cols rows r c :
  0 ≤ r < rows → 0 ≤ c < cols → (r, c) ∈ grid_cells cols rows.
Proof.
  intros Hr Hc. unfold grid_cells. apply list_elem_of_bind. exists r. split.
  - apply list_elem_of_bind. exists c. split; [by left|]. apply elem_of_seqZ. lia.
  - apply elem_of_seqZ. lia.
Qed.

Lemma length_key_space (cols rows : Z) (dirty : gset Position) :
  length (key_space cols rows dirty)
  = (Z.to_nat rows * Z.to_nat cols * 2 ^ size dirty)%nat.
Proof.
  unfold key_space. rewrite (length_bind_const _ _ (2 ^ size dirty)%nat).
  - by rewrite length_grid_cells.
  - intros p. rewrite (length_bind_const _ _ 1%nat) by done.
    rewrite length_sublists. unfold size, set_size. simpl. lia.
Qed.

Lemma elem_of_key_space (cols rows : Z) (dirty : gset Position) (r c : Z) (D : gset Position) :
  0 ≤ r < rows → 0 ≤ c < cols → D ⊆ dirty → ((r, c), D) ∈ key_space cols rows dirty.
Proof.
  intros Hr Hc HD. unfold key_space. apply list_elem_of_bind. exists (r, c). split.
  - destruct (sublists_complete (elements dirty) D) as (l' & Hl' & <-).
    { by rewrite list_to_set_elements_L. }
    apply list_elem_of_bind. exists l'. split; [by left|done].
  - by apply elem_of_grid_cells.
Qed.

(* ===================================================================== *)
(** ** Replaying action sequences *)
(* ===================================================================== *)

Section Replay.
Variables (cols rows : Z) (world : World).

Local Abbreviation passable' := (passable cols rows world).
Local Abbreviation act' := (act cols rows world).
Local Abbreviation replay' := (replay cols rows world).
Local Abbreviation cleans' := (cleans cols rows world).

Lemma directions_NoDup : NoDup (directions.*2).
Proof. apply (bool_decide_unpack _). by vm_compute. Qed.

Lemma delta_directions a d : delta a = Some d ↔ (a, d) ∈ directions.
Proof.
  split.
  - unfold delta. destruct (list_find _ _) as [[i [a' d']]|] eqn:E; [|done].
    simpl. intros [= <-]. apply list_find_Some in E as (Hl & Ha & _).
    simpl in Ha. subst. by eapply list_elem_of_lookup_2.
  - unfold directions. rewrite !elem_of_cons, elem_of_nil.
    intros [[= -> ->]|[[= -> ->]|[[= -> ->]|[[= -> ->]|[]]]]]; done.
Qed.

Lemma directions_not_V a d : (a, d) ∈ directions → a ≠ "V"%string.
Proof.
  unfold directions. rewrite !elem_of_cons, elem_of_nil.
  intros [[= -> ->]|[[= -> ->]|[[= -> ->]|[[= -> ->]|[]]]]]; done.
Qed.

Lemma act_V s : act' s "V" = Some (s.1, s.2 ∖ {[ s.1 ]}).
Proof. done. Qed.

Lemma act_move s a dr dc :
  (a, (dr, dc)) ∈ directions →
  passable' (s.1.1 + dr) (s.1.2 + dc) = Some true →
  act' s a = Some ((s.1.1 + dr, s.1.2 + dc), s.2).
Proof.
  intros Hd Hp. unfold act.
  rewrite decide_False by by eapply directions_not_V.
  apply delta_directions in Hd as ->. simpl. by rewrite decide_True.
Qed.

Lemma act_inv s a s' :
  act' s a = Some s' →
  (a = "V"%string ∧ s' = (s.1, s.2 ∖ {[ s.1 ]}))
  ∨ ∃ dr dc, (a, (dr, dc)) ∈ directions
      ∧ passable' (s.1.1 + dr) (s.1.2 + dc) = Some true
      ∧ s' = ((s.1.1 + dr, s.1.2 + dc), s.2).
Proof.
  unfold act. case_decide as Ha; [intros [= <-]; by left|].
  destruct (delta a) as [[dr dc]|] eqn:Hd; [|done]. simpl.
  case_decide as Hp; [|done]. intros [= <-]. right.
  exists dr, dc. by apply delta_directions in Hd.
Qed.

Lemma replay_app s l1 l2 :
  replay' s (l1 ++ l2) = s' ← replay' s l1; replay' s' l2.
Proof.
  revert s. induction l1 as [|a l1 IH]; intros s; [done|]. simpl.
  destruct (act' s a); [apply IH|done].
Qed.

Lemma replay_snoc s l a s' :
  replay' s l = Some s' → replay' s (l ++ [a]) = act' s' a.
Proof. intros Hl. rewrite replay_app, Hl. simpl. by destruct (act' s' a). Qed.

(** Replaying never adds dirt. *)
Lemma replay_dirty_subseteq l : ∀ s s', replay' s l = Some s' → s'.2 ⊆ s.2.
Proof.
  induction l as [|a l IH]; intros s s'; simpl.
  - by intros [= <-].
  - destruct (act' s a) as [s1|] eqn:Ha; [|done]. simpl. intros Hr%IH.
    apply act_inv in Ha as [[_ ->]|(dr & dc & _ & _ & ->)]; simpl in *; set_solver.
Qed.

(** Dirt that is not there needs no vacuum action: from a cleaning
    sequence, one for the world without the dirty cell [x], shorter by at
    least one action. *)
Lemma cleans_remove_dirt l : ∀ p E x,
  cleans' (p, E) l → x ∈ E →
  ∃ l', (length l' < length l)%nat ∧ cleans' (p, E ∖ {[ x ]}) l'.
Proof.
  induction l as [|a l IH]; intros p E x [q Hq] Hx; simpl in Hq.
  { injection Hq as -> ->. set_solver. }
  destruct (act' (p, E) a) as [s1|] eqn:Ha; [|done]. simpl in Hq.
  apply act_inv in Ha as [[-> ->]|(dr & dc & Hd & Hp & ->)]; simpl in Hq.
  - destruct (decide (x = p)) as [->|Hne].
    + exists l. split; [simpl; lia|]. by exists q.
    + destruct (IH p (E ∖ {[p]}) x) as (l' & Hlen & Hl'); [by exists q|set_solver|].
      exists ("V"%string :: l'). split; [simpl; lia|].
      destruct Hl' as [q' Hq']. exists q'. cbn [replay]. rewrite act_V. simpl.
      by replace (E ∖ {[x]} ∖ {[p]}) with (E ∖ {[p]} ∖ {[x]}) by set_solver.
  - destruct (IH _ E x (ex_intro _ q Hq) Hx) as (l' & Hlen & [q' Hq']).
    exists (a :: l'). split; [simpl; lia|]. exists q'. cbn [replay].
    rewrite (act_move (p, E ∖ {[x]}) a dr dc) by done. done.
Qed.

(** On a clean cell with dirt left elsewhere, a cleaning sequence has to
    move. *)
Lemma cleans_first_move l : ∀ p E,
  cleans' (p, E) l → p ∉ E → E ≠ ∅ →
  ∃ a dr dc l', (a, (dr, dc)) ∈ directions
    ∧ passable' (p.1 + dr) (p.2 + dc) = Some true
    ∧ cleans' ((p.1 + dr, p.2 + dc), E) l'
    ∧ (length l' < length l)%nat.
Proof.
  induction l as [|a l IH]; intros p E [q Hq] Hp HE; simpl in Hq.
  { by injection Hq as -> ->. }
  destruct (act' (p, E) a) as [s1|] eqn:Ha; [|done]. simpl in Hq.
  apply act_inv in Ha as [[-> ->]|(dr & dc & Hd & Hpass & ->)]; simpl in Hq.
  - replace (E ∖ {[p]}) with E in Hq by set_solver.
    destruct (IH p E (ex_intro _ q Hq) Hp HE) as (a & dr & dc & l' & ? & ? & ? & ?).
    exists a, dr, dc, l'. split_and!; [done..|simpl; lia].
  - exists a, dr, dc, l. split_and!; [done|done|by exists q|simpl; lia].
Qed.

(** The next move of a cleaning sequence, after the vacuum step of the
    loop: it leads to a successor key from which a sequence cleans that is
    shorter by the move and by the vacuum action, if one was due. *)
Lemma cleans_advance l p D :
  cleans' (p, D) l → D ∖ {[ p ]} ≠ ∅ →
  ∃ a dr dc l', (a, (dr, dc)) ∈ directions
    ∧ passable' (p.1 + dr) (p.2 + dc) = Some true
    ∧ cleans' ((p.1 + dr, p.2 + dc), D ∖ {[ p ]}) l'
    ∧ (length l' + 1 + (if decide (p ∈ D) then 1 else 0) ≤ length l)%nat.
Proof.
  intros Hl HD. case_decide as Hp.
  - destruct (cleans_remove_dirt _ _ _ _ Hl Hp) as (l1 & Hlen1 & Hl1).
    destruct (cleans_first_move _ _ _ Hl1) as (a & dr & dc & l' & ? & ? & ? & ?);
      [set_solver|done|].
    exists a, dr, dc, l'. split_and!; [done..|lia].
  - replace (D ∖ {[p]}) with D in * by set_solver.
    destruct (cleans_first_move _ _ _ Hl) as (a & dr & dc & l' & ? & ? & ? & ?);
      [done..|].
    exists a, dr, dc, l'. split_and!; [done..|lia].
Qed.

(** From a closed set of keys nothing cleans. *)
Lemma closed_under_no_solution (C : gset Key) :
  closed_under cols rows world C C →
  ∀ l p D, (p, D) ∈ C → ¬ cleans' (p, D) l.
Proof.
  intros HC l. induction l as [l IH] using (induction_ltof1 _ length).
  unfold ltof in IH. intros p D Hin Hl. destruct (HC p D Hin) as [HD Hsucc].
  destruct (cleans_advance _ _ _ Hl HD) as (a & dr & dc & l' & Hd & Hp & Hl' & Hlen).
  eapply (IH l'); [lia| |done]. by eapply Hsucc.
Qed.

End Replay.

(* ===================================================================== *)
(** ** The loop invariant of both strategies *)
(* ===================================================================== *)

Lemma vacuum_position cur : position (vacuum cur) = position cur.
Proof. unfold vacuum. by case_decide. Qed.

Lemma vacuum_dirty cur :
  dirty_cells (vacuum cur) = dirty_cells cur ∖ {[ position cur ]}.
Proof. unfold vacuum. case_decide; simpl; set_solver. Qed.

Lemma vacuum_path cur :
  path (vacuum cur)
  = path cur ++ (if decide (position cur ∈ dirty_cells cur) then ["V"%string] else []).
Proof. unfold vacuum. case_decide; simpl; [done|by rewrite app_nil_r]. Qed.

Section Fuel.
Context {F : Type}.
Variable push : F → RobotState → F.
Variable pop : F → option (RobotState * F).
Variables (cols rows : Z) (world : World).

(** A run that has ended does not depend on the loop bound. *)
Lemma search_loop_fuel fuel : ∀ st k,
  search_loop push pop cols rows world fuel st ≠ OutOfFuel →
  search_loop push pop cols rows world (fuel + k) st
  = search_loop push pop cols rows world fuel st.
Proof.
  induction fuel as [|fuel IH]; intros st k; [done|]. simpl.
  destruct (step push pop cols rows world st) as [r|st']; [done|]. apply IH.
Qed.
End Fuel.

Section GenericSearch.
Context {F : Type}.
Variable push : F → RobotState → F.
Variable pop : F → option (RobotState * F).
Variable elems : F → list RobotState.
Variable fr_ok : F → Prop.
Variables (cols rows : Z) (world : World).
Variable k0 : Key.
Hypothesis laws : frontier_laws push pop elems fr_ok.

Local Abbreviation step' := (step push pop cols rows world).
Local Abbreviation search_loop' := (search_loop push pop cols rows world).
Local Abbreviation replay' := (replay cols rows world).
Local Abbreviation cleans' := (cleans cols rows world).
Local Abbreviation inv' := (inv elems fr_ok cols rows world k0).
Local Abbreviation potential' := (potential elems cols rows k0).

Lemma vacuum_sound cur :
  replay' k0 (path cur) = Some (key_of cur) →
  replay' k0 (path (vacuum cur)) = Some (key_of (vacuum cur)).
Proof using Type.
  intros Hr. unfold vacuum. case_decide; [|done]. simpl.
  by rewrite (replay_snoc _ _ _ _ _ _ _ Hr).
Qed.

(** The loop body, with the inner loop replaced by its effect. *)
Lemma step_unfold st :
  step' st =
  match pop (frontier st) with
  | None => inl (Exhausted (gen st) (exp st))
  | Some (cur, fr) =>
      if decide (dirty_cells (vacuum cur) = ∅)
      then inl (Solved (path (vacuum cur)) (gen st) (exp st + 1)%nat)
      else
        match successors cols rows world (vacuum cur) with
        | None => inl IndexError
        | Some news =>
            let fresh := filter (λ n, key_of n ∉ explored st) news in
            inr (mkSearchState (foldl push fr fresh)
                   (explored st ∪ list_to_set (key_of <$> fresh))
                   (gen st + length fresh)%nat (exp st + 1)%nat)
        end
  end.
Proof using Type.
  unfold step. destruct (pop (frontier st)) as [[cur fr]|]; [|done].
  destruct (position cur) as [r c] eqn:Hpos.
  case_decide; [done|].
  pose proof (foldl_push_generate push cols rows world (vacuum cur) directions
                directions_NoDup fr (explored st) (gen st)) as Hfold.
  rewrite vacuum_position, Hpos in Hfold. cbn [fst snd] in Hfold. rewrite Hfold.
  unfold successors. by destruct (successors_of _ _ _ _ _).
Qed.

Lemma foldl_push_ok fr l :
  fr_ok fr → fr_ok (foldl push fr l) ∧ elems (foldl push fr l) ≡ₚ l ++ elems fr.
Proof.
  revert fr. induction l as [|n l IH]; intros fr Hok; [done|]. simpl.
  destruct (IH (push fr n)) as [Hok' Hperm]; [by apply laws|].
  split; [done|]. rewrite Hperm, (fl_push_elems _ _ _ _ laws) by done.
  by rewrite Permutation_middle.
Qed.

(** One iteration that continues keeps the invariant and uses up one
    unit of the potential. *)
Lemma inv_step st cur fr news :
  inv' st →
  pop (frontier st) = Some (cur, fr) →
  dirty_cells (vacuum cur) ≠ ∅ →
  successors cols rows world (vacuum cur) = Some news →
  let fresh := filter (λ n, key_of n ∉ explored st) news in
  let st' := mkSearchState (foldl push fr fresh)
               (explored st ∪ list_to_set (key_of <$> fresh))
               (gen st + length fresh)%nat (exp st + 1)%nat in
  inv' st' ∧ (potential' st' + 1 = potential' st)%nat.
Proof.
  intros [Hok Hsound Hspace Hgen Hexp (C & HC & Hcov)] Hpop Hdirty Hnews fresh st'.
  pose proof (fl_pop_ok _ _ _ _ laws _ _ _ Hok Hpop) as Hok1.
  pose proof (fl_pop_elems _ _ _ _ laws _ _ _ Hok Hpop) as Helems.
  destruct (foldl_push_ok fr fresh Hok1) as [Hok2 Helems2].
  assert (Hcur : replay' k0 (path (vacuum cur)) = Some (key_of (vacuum cur))).
  { apply vacuum_sound, Hsound. rewrite Helems. by left. }
  assert (Hnew : ∀ n, n ∈ news → ∃ a dr dc,
      (a, (dr, dc)) ∈ directions
      ∧ passable cols rows world ((position cur).1 + dr) ((position cur).2 + dc) = Some true
      ∧ n = mkRobotState ((position cur).1 + dr, (position cur).2 + dc)
              (dirty_cells (vacuum cur)) (path (vacuum cur) ++ [a])).
  { intros n Hn.
    destruct (succs_elem _ _ _ _ _ _ _ Hnews Hn) as (a & dr & dc & Hd & Hs).
    apply successor_position in Hs as [-> Hp]. rewrite vacuum_position in *.
    by exists a, dr, dc. }
  assert (Hfresh : ∀ n, n ∈ fresh → n ∈ news ∧ key_of n ∉ explored st).
  { intros n Hn. apply list_elem_of_filter in Hn. tauto. }
  assert (Hspace' : ∀ k, k ∈ explored st' → k ∈ key_space cols rows k0.2).
  { intros k. simpl. rewrite elem_of_union, elem_of_list_to_set, list_elem_of_fmap.
    intros [Hk|(n & -> & Hn)]; [by apply Hspace|].
    apply Hfresh in Hn as [Hn _].
    destruct (Hnew n Hn) as (a & dr & dc & Hd & Hp & ->).
    apply passable_true in Hp as (? & ? & _). unfold key_of. simpl.
    apply elem_of_key_space; [done..|].
    apply (replay_dirty_subseteq _ _ _ _ _ _ Hcur). }
  assert (size (explored st ∪ list_to_set (key_of <$> fresh))
          = (size (explored st) + length fresh)%nat) as Hsize.
  { rewrite size_union.
    - rewrite size_list_to_set, length_fmap; [done|].
      eapply sublist_NoDup; [eapply succs_NoDup; [apply directions_NoDup|exact Hnews]|].
      apply fmap_sublist, sublist_filter.
    - intros k Hk (n & -> & Hn)%elem_of_list_to_set%list_elem_of_fmap.
      by apply Hfresh in Hn as [_ Hn]. }
  assert (Hlen : length (elems (frontier st)) = S (length (elems fr))).
  { by rewrite Helems. }
  split; [split|].
  - done.
  - intros n. simpl. rewrite Helems2, elem_of_app. intros [Hn|Hn].
    + apply Hfresh in Hn as [Hn _].
      destruct (Hnew n Hn) as (a & dr & dc & Hd & Hp & ->). simpl.
      rewrite (replay_snoc _ _ _ _ _ _ _ Hcur).
      rewrite <- (vacuum_position cur) in Hp |- *.
      by rewrite (act_move _ _ _ (key_of (vacuum cur)) a dr dc).
    + apply Hsound. rewrite Helems. by right.
  - done.
  - simpl. rewrite Hsize. lia.
  - simpl. rewrite Helems2, length_app. lia.
  - exists (C ∪ {[ key_of cur ]}). split.
    + intros p D [Hin|Heq%elem_of_singleton]%elem_of_union;
        [|unfold key_of in Heq; injection Heq as -> ->].
      * destruct (HC p D Hin) as [HD Hsucc]. split; [done|].
        intros a dr dc Hd Hp. simpl. apply elem_of_union. left. by eapply Hsucc.
      * rewrite vacuum_dirty in Hdirty. split; [done|].
        intros a dr dc Hd Hp. simpl.
        pose proof (succs_complete cols rows world (vacuum cur) directions news a dr dc) as Hin.
        rewrite vacuum_position, vacuum_dirty in Hin.
        specialize (Hin Hnews Hd Hp).
        destruct (decide (((position cur).1 + dr, (position cur).2 + dc,
                           dirty_cells cur ∖ {[position cur]}) ∈ explored st)) as [He|He];
          [set_solver|].
        apply elem_of_union. right. apply elem_of_list_to_set, list_elem_of_fmap.
        eexists. split; [|apply list_elem_of_filter; split; [|exact Hin]]; done.
    + intros k Hk. simpl in Hk.
      assert (k ∈ explored st ∨ k = k0 ∨ k ∈ key_of <$> fresh) as [Hk'|[Hk'|Hk']].
      { rewrite elem_of_union, elem_of_list_to_set in Hk. tauto. }
      * destruct (Hcov k (or_introl Hk')) as [?|(n & Hn & <-)]; [left; set_solver|].
        rewrite Helems in Hn. apply elem_of_cons in Hn as [->|Hn]; [left; set_solver|].
        right. exists n. split; [|done]. simpl. rewrite Helems2. set_solver.
      * destruct (Hcov k (or_intror Hk')) as [?|(n & Hn & <-)]; [left; set_solver|].
        rewrite Helems in Hn. apply elem_of_cons in Hn as [->|Hn]; [left; set_solver|].
        right. exists n. split; [|done]. simpl. rewrite Helems2. set_solver.
      * apply list_elem_of_fmap in Hk' as (n & -> & Hn).
        right. exists n. split; [|done]. simpl. rewrite Helems2. set_solver.
  - unfold potential. simpl.
    rewrite Helems2, length_app, Hlen.
    pose proof (size_le_length _ _ Hspace') as Hle. simpl in Hle.
    rewrite Hsize in Hle |- *. lia.
Qed.

Lemma successors_wf cur : wf_world cols rows world → is_Some (successors cols rows world cur).
Proof using Type.
  intros Hwf. unfold successors. generalize directions. intros ds.
  induction ds as [|[a [dr dc]] ds IH]; [by eexists|].
  rewrite succs_cons. unfold successor.
  destruct (passable_wf cols rows world ((position cur).1 + dr) ((position cur).2 + dc) Hwf)
    as [ok ->].
  destruct IH as [l ->]. by eexists.
Qed.

Lemma inv_init st0 start :
  fr_ok (frontier st0) → elems (frontier st0) = [start] → explored st0 = ∅ →
  gen st0 = 0%nat → exp st0 = 0%nat →
  path start = [] → key_of start = k0 →
  inv' st0 ∧ potential' st0 = (1 + length (key_space cols rows k0.2))%nat.
Proof using Type.
  clear laws push pop.
  intros Hok Helems HX Hgen Hexp Hpath Hk. split; [split|].
  - done.
  - intros n. rewrite Helems. intros ->%list_elem_of_singleton. by rewrite Hpath, Hk.
  - intros k. rewrite HX. set_solver.
  - by rewrite Hgen, HX, size_empty.
  - by rewrite Hgen, Hexp, Helems.
  - exists ∅. split; [intros p D; set_solver|].
    intros k [Hk'| ->]; [rewrite HX in Hk'; set_solver|].
    right. exists start. rewrite Helems. split; [by left|done].
  - unfold potential. rewrite Helems, HX, size_empty. simpl. lia.
Qed.

(** Every run ends within the bound, and ends the way the world makes it
    end. *)
Lemma inv_counters st :
  inv' st →
  (gen st ≤ length (key_space cols rows k0.2))%nat ∧ (exp st ≤ gen st + 1)%nat.
Proof using Type.
  intros [Hok Hsound Hspace Hgen Hexp _]. split; [|lia].
  rewrite Hgen. by apply size_le_length.
Qed.

Lemma search_loop_correct fuel : ∀ st,
  inv' st →
  match search_loop' fuel st with
  | Solved acts g e =>
      cleans' k0 acts
      ∧ (g ≤ length (key_space cols rows k0.2))%nat ∧ (e ≤ g + 1)%nat
  | Exhausted g e =>
      (∀ acts, ¬ cleans' k0 acts)
      ∧ (g ≤ length (key_space cols rows k0.2))%nat ∧ (e ≤ g + 1)%nat
  | IndexError => ¬ wf_world cols rows world
  | OutOfFuel => (fuel ≤ potential' st)%nat
  end.
Proof.
  induction fuel as [|fuel IH]; intros st Hinv; [simpl; lia|].
  cbn [search_loop]. rewrite step_unfold.
  pose proof (inv_counters st Hinv) as [Hg He].
  destruct (pop (frontier st)) as [[cur fr]|] eqn:Hpop.
  - case_decide as Hgoal.
    + split.
      * exists (position (vacuum cur)). rewrite <- Hgoal. apply vacuum_sound.
        apply (inv_sound _ _ _ _ _ _ _ Hinv).
        rewrite (fl_pop_elems _ _ _ _ laws _ _ _ (inv_ok _ _ _ _ _ _ _ Hinv) Hpop). by left.
      * split; [done|].
        pose proof (inv_exp _ _ _ _ _ _ _ Hinv) as Hexp.
        rewrite (fl_pop_elems _ _ _ _ laws _ _ _ (inv_ok _ _ _ _ _ _ _ Hinv) Hpop) in Hexp.
        simpl in Hexp. lia.
    + destruct (successors cols rows world (vacuum cur)) as [news|] eqn:Hnews.
      * pose proof (inv_step st cur fr news Hinv Hpop Hgoal Hnews) as Hstep.
        cbv zeta in Hstep |- *.
        set (st' := mkSearchState _ _ _ _) in *. destruct Hstep as [Hinv' Hpot'].
        specialize (IH _ Hinv').
        destruct (search_loop' fuel st'); [exact IH..|lia].
      * intros Hwf. destruct (successors_wf (vacuum cur) Hwf) as [? ?]. congruence.
  - split; [|done].
    destruct Hinv as [Hok Hsound Hspace Hgen Hexp (C & HC & Hcov)].
    pose proof (fl_pop_None _ _ _ _ laws _ Hpop) as Hnil.
    assert (HXC : ∀ k, k ∈ explored st ∨ k = k0 → k ∈ C).
    { intros k Hk. destruct (Hcov k Hk) as [?|(n & Hn & _)]; [done|].
      rewrite Hnil in Hn. by apply elem_of_nil in Hn. }
    intros acts. destruct k0 as [p0 D0] eqn:Hk0.
    apply (closed_under_no_solution cols rows world C); [|by apply HXC; right].
    intros p D Hin. destruct (HC p D Hin) as [HD Hsucc]. split; [done|].
    intros a dr dc Hd Hp. apply HXC. left. by eapply Hsucc.
Qed.

End GenericSearch.

(* ===================================================================== *)
(** ** The two frontiers *)
(* ===================================================================== *)

(** *** The order on frontier entries *)

Lemma entry_lt_spec a b :
  entry_lt a b = true ↔
  (a.1 < b.1)%nat
  ∨ (a.1 = b.1 ∧ (size (dirty_cells a.2) < size (dirty_cells b.2))%nat).
Proof.
  unfold entry_lt, RobotState_lt.
  rewrite orb_true_iff, andb_true_iff, !bool_decide_eq_true. tauto.
Qed.

Lemma entry_le_spec a b :
  heapq.item_le entry_lt a b ↔
  (a.1 < b.1)%nat
  ∨ (a.1 = b.1 ∧ (size (dirty_cells a.2) ≤ size (dirty_cells b.2))%nat).
Proof.
  unfold heapq.item_le. rewrite <- not_true_iff_false, entry_lt_spec. lia.
Qed.

Lemma entry_lt_asym a b : entry_lt a b = true → entry_lt b a = false.
Proof. rewrite <- not_true_iff_false, !entry_lt_spec. lia. Qed.

Lemma entry_le_trans a b c :
  heapq.item_le entry_lt a b → heapq.item_le entry_lt b c →
  heapq.item_le entry_lt a c.
Proof. rewrite !entry_le_spec. lia. Qed.

(** *** The frontier laws of the priority queue and of the stack *)


Lemma ucs_frontier_laws :
  frontier_laws ucs_push ucs_pop ucs_elems (heapq.is_heap entry_lt).
Proof.
  split.
  - intros pq n Hh. by apply heapq_facts.heappush_is_heap; [apply entry_lt_asym|apply entry_le_trans|].
  - intros pq n Hh. unfold ucs_elems, ucs_push.
    by rewrite heapq_facts.heappush_perm.
  - intros pq n pq' Hh. unfold ucs_pop.
    destruct (heapq.heappop entry_lt pq) as [[e pq1]|] eqn:Hpop; [|done].
    simpl. intros [= <- <-].
    by eapply heapq_facts.heappop_spec; [apply entry_lt_asym|apply entry_le_trans| |].
  - intros pq n pq' Hh. unfold ucs_pop, ucs_elems.
    destruct (heapq.heappop entry_lt pq) as [[e pq1]|] eqn:Hpop; [|done].
    simpl. intros [= <- <-].
    destruct (heapq_facts.heappop_spec entry_lt entry_lt_asym entry_le_trans pq e pq1 Hh Hpop)
      as (_ & Hperm & _). by rewrite Hperm.
  - intros pq. unfold ucs_pop.
    destruct (heapq.heappop entry_lt pq) as [[e pq1]|] eqn:Hpop; [done|].
    intros _. by apply heapq_facts.heappop_None in Hpop as ->.
Qed.

Lemma dfs_frontier_laws :
  frontier_laws dfs_push dfs_pop dfs_elems (λ _, True).
Proof.
  split; try done.
  - intros stack n _. unfold dfs_elems, dfs_push. by rewrite <- Permutation_cons_append.
  - intros stack n stack' _. unfold dfs_pop, dfs_elems.
    destruct (last stack) as [x|] eqn:Hlast; [|done]. simpl. intros [= <- <-].
    apply last_Some in Hlast as [l' ->]. rewrite removelast_last.
    by rewrite <- Permutation_cons_append.
  - intros stack. unfold dfs_pop, dfs_elems.
    destruct (last stack) as [x|] eqn:Hlast; [done|]. intros _.
    by apply last_None in Hlast.
Qed.

(* ===================================================================== *)
(** ** How often a key is popped *)
(* ===================================================================== *)

Lemma key_count_NoDup k l :
  NoDup (key_of <$> l) →
  (key_count k l ≤ 1)%nat ∧ (k ∉ key_of <$> l → key_count k l = 0%nat).
Proof.
  unfold key_count. induction l as [|n l IH]; [simpl; intros; split; [lia|done]|].
  rewrite fmap_cons. intros [Hn Hnd]%NoDup_cons. destruct (IH Hnd) as [IH1 IH2].
  destruct (decide (key_of n = k)) as [Hk|Hk].
  - rewrite filter_cons_True by done. simpl. rewrite <- Hk in *.
    rewrite (IH2 Hn). split; [lia|]. intros Hnot. exfalso. apply Hnot. by left.
  - rewrite filter_cons_False by done. split; [done|].
    intros Hnot. apply IH2. intros ?. apply Hnot. by right.
Qed.

Section Popped.
Context {F : Type}.
Variable push : F → RobotState → F.
Variable pop : F → option (RobotState * F).
Variable elems : F → list RobotState.
Variable fr_ok : F → Prop.
Variables (cols rows : Z) (world : World).
Hypothesis laws : frontier_laws push pop elems fr_ok.

(** A key is popped at most as often as it sits in the frontier, plus
    once if it is not yet recorded in [explored]. *)
Lemma popped_key_count fuel : ∀ st k,
  fr_ok (frontier st) →
  (key_count k (popped push pop cols rows world fuel st)
   ≤ key_count k (elems (frontier st))
     + (if decide (k ∈ explored st) then 0 else 1))%nat.
Proof.
  induction fuel as [|fuel IH]; intros st k Hok; [unfold key_count; simpl; lia|].
  cbn [popped]. destruct (pop (frontier st)) as [[cur fr1]|] eqn:Hpop;
    [|unfold key_count; simpl; lia].
  pose proof (fl_pop_ok _ _ _ _ laws _ _ _ Hok Hpop) as Hok1.
  pose proof (fl_pop_elems _ _ _ _ laws _ _ _ Hok Hpop) as Helems.
  assert (Hcur : ∀ l, key_count k (cur :: l)
                 = ((if decide (key_of cur = k) then 1 else 0) + key_count k l)%nat).
  { intros l. unfold key_count. case_decide.
    - by rewrite filter_cons_True.
    - by rewrite filter_cons_False. }
  assert (Hfr : key_count k (elems (frontier st))
                = ((if decide (key_of cur = k) then 1 else 0)
                   + key_count k (elems fr1))%nat).
  { rewrite <- Hcur. unfold key_count. by rewrite Helems. }
  rewrite Hcur, Hfr.
  destruct (step push pop cols rows world st) as [r|st'] eqn:Hstep.
  { unfold key_count at 1. simpl. lia. }
  rewrite step_unfold, Hpop in Hstep. case_decide as Hgoal; [done|].
  destruct (successors cols rows world (vacuum cur)) as [news|] eqn:Hnews; [|done].
  injection Hstep as <-.
  set (fresh := filter (λ n, key_of n ∉ explored st) news).
  destruct (foldl_push_ok push pop elems fr_ok laws fr1 fresh Hok1) as [Hok2 Helems2].
  specialize (IH (mkSearchState (foldl push fr1 fresh)
                    (explored st ∪ list_to_set (key_of <$> fresh))
                    (gen st + length fresh)%nat (exp st + 1)%nat) k Hok2).
  cbn [frontier explored] in IH.
  assert (key_count k (elems (foldl push fr1 fresh))
          = (key_count k fresh + key_count k (elems fr1))%nat) as Hsplit.
  { unfold key_count. by rewrite Helems2, filter_app, length_app. }
  rewrite Hsplit in IH.
  assert (NoDup (key_of <$> fresh)) as Hnd.
  { eapply sublist_NoDup; [eapply succs_NoDup; [apply directions_NoDup|exact Hnews]|].
    apply fmap_sublist, sublist_filter. }
  destruct (key_count_NoDup k fresh Hnd) as [Hle1 Hzero].
  assert (Hfreshkey : k ∈ key_of <$> fresh → k ∉ explored st).
  { intros (n & -> & Hn)%list_elem_of_fmap. by apply list_elem_of_filter in Hn as [? _]. }
  set (X' := explored st ∪ list_to_set (key_of <$> fresh)) in *.
  assert (HX' : k ∈ X' ↔ k ∈ explored st ∨ k ∈ key_of <$> fresh).
  { unfold X'. by rewrite elem_of_union, elem_of_list_to_set. }
  destruct (decide (k ∈ X')) as [Hin'|Hnin'] in IH;
    destruct (decide (k ∈ explored st)) as [HX|HX].
  - rewrite Hzero in IH; [lia|]. intros ?. by apply Hfreshkey.
  - lia.
  - exfalso. apply Hnin', HX'. by left.
  - rewrite Hzero in IH; [lia|]. intros ?. apply Hnin', HX'. by right.
Qed.
End Popped.

(** X19: what the duplicate check does achieve: in a run of either
    strategy a key is popped at most once, except the key of the start
    state, which is popped at most twice. *)
Lemma popped_at_most_twice cols rows world start fuel k :
  (key_count k (popped ucs_push ucs_pop cols rows world fuel (ucs_init start))
   ≤ if decide (k = key_of start) then 2 else 1)%nat
  ∧ (key_count k (popped dfs_push dfs_pop cols rows world fuel (dfs_init start))
     ≤ if decide (k = key_of start) then 2 else 1)%nat.
Proof.
  split.
  - pose proof (popped_key_count ucs_push ucs_pop ucs_elems _ cols rows world
                  ucs_frontier_laws fuel (ucs_init start) k) as H.
    assert (heapq.is_heap entry_lt (frontier (ucs_init start))) as Hh.
    { apply heapq_facts.heappush_is_heap, heapq_facts.is_heap_nil;
        [apply entry_lt_asym|apply entry_le_trans]. }
    specialize (H Hh).
    change (ucs_elems (frontier (ucs_init start))) with [start] in H.
    change (explored (ucs_init start)) with (∅ : gset Key) in H.
    rewrite decide_False in H by apply not_elem_of_empty.
    unfold key_count in H at 2. case_decide as Hk.
    + rewrite filter_cons_True in H by done. simpl in H. lia.
    + rewrite filter_cons_False in H by (intros ?; by apply Hk). simpl in H. lia.
  - pose proof (popped_key_count dfs_push dfs_pop dfs_elems _ cols rows world
                  dfs_frontier_laws fuel (dfs_init start) k I) as H.
    change (dfs_elems (frontier (dfs_init start))) with [start] in H.
    change (explored (dfs_init start)) with (∅ : gset Key) in H.
    rewrite decide_False in H by apply not_elem_of_empty.
    unfold key_count in H at 2. case_decide as Hk.
    + rewrite filter_cons_True in H by done. simpl in H. lia.
    + rewrite filter_cons_False in H by (intros ?; by apply Hk). simpl in H. lia.
Qed.

(* ===================================================================== *)
(** ** Runs of the two strategies *)
(* ===================================================================== *)

Section Runs.
Variables (cols rows : Z) (world : World).
Variables (pos : Position) (dirty : gset Position).

Local Abbreviation start := (mkRobotState pos dirty []).
Local Abbreviation cleans' := (cleans cols rows world (pos, dirty)).
Local Abbreviation space := (Z.to_nat rows * Z.to_nat cols * 2 ^ size dirty)%nat.

Lemma ucs_init_inv :
  inv ucs_elems (heapq.is_heap entry_lt) cols rows world (pos, dirty) (ucs_init start)
  ∧ potential ucs_elems cols rows (pos, dirty) (ucs_init start) = (1 + space)%nat.
Proof.
  rewrite <- length_key_space.
  apply (inv_init ucs_elems (heapq.is_heap entry_lt) cols rows world (pos, dirty)
           (ucs_init start) start); try done.
  apply heapq_facts.heappush_is_heap, heapq_facts.is_heap_nil;
    [apply entry_lt_asym|apply entry_le_trans].
Qed.

Lemma dfs_init_inv :
  inv dfs_elems (λ _, True) cols rows world (pos, dirty) (dfs_init start)
  ∧ potential dfs_elems cols rows (pos, dirty) (dfs_init start) = (1 + space)%nat.
Proof.
  rewrite <- length_key_space.
  by apply (inv_init dfs_elems (λ _, True) cols rows world (pos, dirty)
              (dfs_init start) start).
Qed.

Lemma ucs_run_ok fuel :
  run_ok cols rows world pos dirty fuel (ucs cols rows world start fuel).
Proof.
  destruct ucs_init_inv as [Hinv Hpot].
  pose proof (search_loop_correct _ _ _ _ cols rows world (pos, dirty)
                ucs_frontier_laws fuel _ Hinv) as H.
  unfold ucs, run_ok. destruct (search_loop _ _ _ _ _ _ _);
    rewrite ?length_key_space in H; [done..|].
  rewrite Hpot in H. unfold fuel_bound. lia.
Qed.

Lemma dfs_run_ok fuel :
  run_ok cols rows world pos dirty fuel (dfs cols rows world start fuel).
Proof.
  destruct dfs_init_inv as [Hinv Hpot].
  pose proof (search_loop_correct _ _ _ _ cols rows world (pos, dirty)
                dfs_frontier_laws fuel _ Hinv) as H.
  unfold dfs, run_ok. destruct (search_loop _ _ _ _ _ _ _);
    rewrite ?length_key_space in H; [done..|].
  rewrite Hpot in H. unfold fuel_bound. lia.
Qed.

Lemma replay_split s l1 a l2 s' :
  replay cols rows world s (l1 ++ a :: l2) = Some s' →
  ∃ s1 s2, replay cols rows world s l1 = Some s1
    ∧ act cols rows world s1 a = Some s2
    ∧ replay cols rows world s2 l2 = Some s'.
Proof.
  rewrite replay_app. destruct (replay cols rows world s l1) as [s1|]; [|done].
  simpl. destruct (act cols rows world s1 a) as [s2|] eqn:Ha; [|done]. simpl.
  intros Hr. by exists s1, s2.
Qed.

(** Every move of a cleaning sequence ends on a cell of the grid that is
    not a wall. *)
Lemma cleans_moves_passable s acts :
  cleans cols rows world s acts →
  ∀ l1 a l2, acts = l1 ++ a :: l2 → a ≠ "V"%string →
    ∃ p D, replay cols rows world s (l1 ++ [a]) = Some (p, D)
      ∧ 0 ≤ p.1 < rows ∧ 0 ≤ p.2 < cols
      ∧ ∃ ch, cell world p.1 p.2 = Some ch ∧ ch ≠ "#"%char.
Proof.
  intros [q Hq] l1 a l2 -> Ha.
  apply replay_split in Hq as (s1 & s2 & H1 & H2 & _).
  rewrite (replay_snoc _ _ _ _ _ _ _ H1), H2.
  apply act_inv in H2 as [[-> _]|(dr & dc & _ & Hp & ->)]; [done|].
  apply passable_true in Hp as (? & ? & ?). eauto 10.
Qed.

Lemma directions_opposite a dr dc :
  (a, (dr, dc)) ∈ directions → ∃ a', (a', (- dr, - dc)) ∈ directions.
Proof.
  unfold directions. rewrite !elem_of_cons, elem_of_nil.
  intros [[= -> -> ->]|[[= -> -> ->]|[[= -> -> ->]|[[= -> -> ->]|[]]]]];
    [exists "S"%string|exists "N"%string|exists "W"%string|exists "E"%string];
    set_solver.
Qed.

(** Dirt on an enclosed cell stays: the robot never gets there. *)
Lemma replay_enclosed d l : ∀ p E s',
  enclosed cols rows world d →
  passable cols rows world p.1 p.2 = Some true → p ≠ d → d ∈ E →
  replay cols rows world (p, E) l = Some s' → d ∈ s'.2.
Proof.
  induction l as [|a l IH]; intros p E s' Hd Hp Hne Hin; simpl.
  { by intros [= <-]. }
  destruct (act cols rows world (p, E) a) as [s1|] eqn:Ha; [|done]. simpl.
  apply act_inv in Ha as [[-> ->]|(dr & dc & Hdir & Hpass & ->)]; simpl in *.
  - apply IH; [done..|set_solver].
  - apply IH; [done..| |done]. intros <-.
    destruct (directions_opposite _ _ _ Hdir) as [a' Hopp].
    specialize (Hd a' _ _ Hopp). simpl in Hd.
    replace (p.1 + dr + - dr) with p.1 in Hd by lia.
    replace (p.2 + dc + - dc) with p.2 in Hd by lia. congruence.
Qed.

Lemma enclosed_no_solution d :
  enclosed cols rows world d →
  passable cols rows world pos.1 pos.2 = Some true → pos ≠ d → d ∈ dirty →
  ∀ acts, ¬ cleans' acts.
Proof.
  intros Hd Hp Hne Hin acts [q Hq].
  pose proof (replay_enclosed d acts pos dirty _ Hd Hp Hne Hin Hq) as H.
  set_solver.
Qed.

End Runs.

(** C3: whenever either strategy returns a solution, replaying the
    returned actions from the start position and the initial dirty set is
    possible move by move, every move ends on a cell inside the grid that
    is not a wall, and no dirty cell is left at the end. *)
Theorem solution_replays cols rows world pos dirty fuel acts g e :
  ucs cols rows world (mkRobotState pos dirty []) fuel = Solved acts g e
  ∨ dfs cols rows world (mkRobotState pos dirty []) fuel = Solved acts g e →
  (∃ p, replay cols rows world (pos, dirty) acts = Some (p, ∅))
  ∧ ∀ l1 a l2, acts = l1 ++ a :: l2 → a ≠ "V"%string →
      ∃ p D, replay cols rows world (pos, dirty) (l1 ++ [a]) = Some (p, D)
        ∧ 0 ≤ p.1 < rows ∧ 0 ≤ p.2 < cols
        ∧ ∃ ch, cell world p.1 p.2 = Some ch ∧ ch ≠ "#"%char.
Proof.
  intros Hrun.
  assert (cleans cols rows world (pos, dirty) acts) as Hc.
  { destruct Hrun as [Hrun|Hrun].
    - pose proof (ucs_run_ok cols rows world pos dirty fuel) as H.
      rewrite Hrun in H. apply H.
    - pose proof (dfs_run_ok cols rows world pos dirty fuel) as H.
      rewrite Hrun in H. apply H. }
  split; [exact Hc|]. by apply cleans_moves_passable.
Qed.


Lemma solution_replays_witness :
  (∃ p, replay 3 1 tiny_world ((0, 2), tiny_dirty) ["W"; "V"]%string = Some (p, ∅))
  ∧ ∀ l1 a l2, ["W"; "V"]%string = l1 ++ a :: l2 → a ≠ "V"%string →
      ∃ p D, replay 3 1 tiny_world ((0, 2), tiny_dirty) (l1 ++ [a]) = Some (p, D)
        ∧ 0 ≤ p.1 < 1 ∧ 0 ≤ p.2 < 3
        ∧ ∃ ch, cell tiny_world p.1 p.2 = Some ch ∧ ch ≠ "#"%char.
Proof.
  apply (solution_replays 3 1 tiny_world (0, 2) tiny_dirty 10 _ 1 2).
  left. vm_compute. reflexivity.
Defined.

(** C7: with [fuel_bound] iterations available, a run of either strategy
    has ended, whatever the world; the generated counter is at most the
    number of keys (grid cells times subsets of the initial dirty set) and
    the expanded counter at most one more. *)
Theorem search_terminates cols rows world pos dirty fuel :
  (fuel_bound cols rows dirty ≤ fuel)%nat →
  ∀ r, r = ucs cols rows world (mkRobotState pos dirty []) fuel
       ∨ r = dfs cols rows world (mkRobotState pos dirty []) fuel →
    r ≠ OutOfFuel
    ∧ ∀ g e, counters r = Some (g, e) →
        (g ≤ Z.to_nat rows * Z.to_nat cols * 2 ^ size dirty)%nat ∧ (e ≤ g + 1)%nat.
Proof.
  intros Hfuel r Hr.
  assert (run_ok cols rows world pos dirty fuel r) as Hok.
  { destruct Hr as [-> | ->]; [apply ucs_run_ok|apply dfs_run_ok]. }
  destruct r as [acts g e|g e| |]; simpl in Hok.
  - split; [done|]. intros ? ? [= <- <-]. tauto.
  - split; [done|]. intros ? ? [= <- <-]. tauto.
  - split; [done|]. by intros.
  - lia.
Qed.

Lemma search_terminates_witness :
  ucs 3 1 tiny_world (mkRobotState (0, 2) tiny_dirty []) 8 ≠ OutOfFuel
  ∧ ∀ g e, counters (ucs 3 1 tiny_world (mkRobotState (0, 2) tiny_dirty []) 8)
             = Some (g, e) →
      (g ≤ Z.to_nat 1 * Z.to_nat 3 * 2 ^ size tiny_dirty)%nat ∧ (e ≤ g + 1)%nat.
Proof.
  apply (search_terminates 3 1 tiny_world (0, 2) tiny_dirty 8).
  - vm_compute. lia.
  - by left.
Defined.

(** C6: an empty frontier ends the loop of either strategy with the
    exhausted outcome carrying the two counters as they are, and the exit
    status of the process is 1. In a validated world in which no action
    sequence cleans every dirty cell - in particular when a dirty cell
    other than the start is enclosed by walls and the grid border - this
    is how both strategies end. *)
Theorem exhausted_report cols rows world pos dirty fuel :
  wf_world cols rows world →
  (fuel_bound cols rows dirty ≤ fuel)%nat →
  (∀ acts, ¬ cleans cols rows world (pos, dirty) acts)
  ∨ (∃ d, d ∈ dirty ∧ d ≠ pos ∧ enclosed cols rows world d
          ∧ passable cols rows world pos.1 pos.2 = Some true) →
  (∀ X g e,
     step ucs_push ucs_pop cols rows world (mkSearchState [] X g e)
     = inl (Exhausted g e)
     ∧ step dfs_push dfs_pop cols rows world (mkSearchState [] X g e)
       = inl (Exhausted g e)
     ∧ exit_status (Exhausted g e) = Some 1)
  ∧ ∃ g e g' e',
      ucs cols rows world (mkRobotState pos dirty []) fuel = Exhausted g e
      ∧ dfs cols rows world (mkRobotState pos dirty []) fuel = Exhausted g' e'.
Proof.
  intros Hwf Hfuel Hno. split; [done|].
  assert (∀ acts, ¬ cleans cols rows world (pos, dirty) acts) as Hnone.
  { destruct Hno as [?|(d & Hin & Hne & Hd & Hp)]; [done|].
    by apply (enclosed_no_solution cols rows world pos dirty d). }
  pose proof (ucs_run_ok cols rows world pos dirty fuel) as Hu.
  pose proof (dfs_run_ok cols rows world pos dirty fuel) as Hd.
  destruct (ucs _ _ _ _ _) as [acts g e|g e| |]; simpl in Hu;
    [by destruct Hu as [?%Hnone _]| |done|lia].
  destruct (dfs _ _ _ _ _) as [acts' g' e'|g' e'| |]; simpl in Hd;
    [by destruct Hd as [?%Hnone _]| |done|lia].
  by exists g, e, g', e'.
Qed.

Lemma exhausted_report_witness :
  (∀ X g e,
     step ucs_push ucs_pop 3 1 walled_world (mkSearchState [] X g e)
     = inl (Exhausted g e)
     ∧ step dfs_push dfs_pop 3 1 walled_world (mkSearchState [] X g e)
       = inl (Exhausted g e)
     ∧ exit_status (Exhausted g e) = Some 1)
  ∧ ∃ g e g' e',
      ucs 3 1 walled_world (mkRobotState (0, 0) walled_dirty []) 8 = Exhausted g e
      ∧ dfs 3 1 walled_world (mkRobotState (0, 0) walled_dirty []) 8
        = Exhausted g' e'.
Proof.
  apply (exhausted_report 3 1 walled_world (0, 0) walled_dirty 8).
  - split; [reflexivity|]. repeat constructor.
  - vm_compute. lia.
  - right. exists (0, 2). split_and!.
    + by apply elem_of_singleton.
    + discriminate.
    + intros a dr dc.
      unfold directions. rewrite !elem_of_cons, elem_of_nil.
      intros [[= -> -> ->]|[[= -> -> ->]|[[= -> -> ->]|[[= -> -> ->]|[]]]]];
        reflexivity.
    + reflexivity.
Defined.

(** C8: in a validated world that some action sequence cleans, the
    depth-first strategy ends with a solution, and the actions it returns
    clean every dirty cell. *)
Theorem dfs_complete cols rows world pos dirty fuel acts0 :
  wf_world cols rows world →
  cleans cols rows world (pos, dirty) acts0 →
  (fuel_bound cols rows dirty ≤ fuel)%nat →
  ∃ acts g e,
    dfs cols rows world (mkRobotState pos dirty []) fuel = Solved acts g e
    ∧ cleans cols rows world (pos, dirty) acts.
Proof.
  intros Hwf Hsol Hfuel.
  pose proof (dfs_run_ok cols rows world pos dirty fuel) as Hd.
  destruct (dfs _ _ _ _ _) as [acts g e|g e| |]; simpl in Hd.
  - exists acts, g, e. by destruct Hd.
  - destruct Hd as [Hnone _]. by apply Hnone in Hsol.
  - done.
  - lia.
Qed.

Lemma dfs_complete_witness :
  ∃ acts g e,
    dfs 3 1 tiny_world (mkRobotState (0, 2) tiny_dirty []) 8 = Solved acts g e
    ∧ cleans 3 1 tiny_world ((0, 2), tiny_dirty) acts.
Proof.
  apply (dfs_complete 3 1 tiny_world (0, 2) tiny_dirty 8 ["W"; "V"]%string).
  - split; [reflexivity|]. repeat constructor.
  - exists (0, 1). vm_compute. reflexivity.
  - vm_compute. lia.
Defined.

(* ===================================================================== *)
(** ** Single iterations and small worlds *)
(* ===================================================================== *)

(** C9: on the world ["_*@"] the uniform-cost strategy returns exactly the
    actions W, V, with one node generated and two expanded, as soon as the
    loop is given two iterations. *)
Theorem tiny_world_ucs fuel :
  ∃ gen exp,
    main ucs 3 1 ["_*@"%string] (2 + fuel) = Some (Solved ["W"; "V"]%string gen exp)
    ∧ (1 ≤ gen)%nat ∧ (1 ≤ exp)%nat.
Proof. exists 1%nat, 2%nat. split; [|lia]. vm_compute. reflexivity. Qed.

Lemma tiny_world_read :
  read_input 3 1 ["_*@"%string] = Some (tiny_world, Some (0, 2), tiny_dirty).
Proof. vm_compute. reflexivity. Qed.

(** C2, on the code: in the world ["*_@"] the uniform-cost loop pops the
    key of the start state twice (first and third iteration): the start
    state is never recorded in [explored], so its key is generated again
    from the neighbouring cell. *)
Theorem start_key_expanded_twice :
  key_of <$> popped ucs_push ucs_pop 3 1 far_world 10
               (ucs_init (mkRobotState (0, 2) far_dirty []))
  = [((0, 2), far_dirty); ((0, 1), far_dirty); ((0, 2), far_dirty); ((0, 0), far_dirty)]
  ∧ ucs 3 1 far_world (mkRobotState (0, 2) far_dirty []) 10
    = Solved ["W"; "W"; "V"]%string 3 4.
Proof. split; vm_compute; reflexivity. Qed.

(** The same happens in the depth-first loop, in the world ["@_*"]. *)
Theorem start_key_expanded_twice_dfs :
  key_of <$> popped dfs_push dfs_pop 3 1 [["_"; "_"; "*"]]%char 10
               (dfs_init (mkRobotState (0, 0) {[ (0, 2) ]} []))
  = [((0, 0), {[ (0, 2) ]}); ((0, 1), {[ (0, 2) ]}); ((0, 0), {[ (0, 2) ]});
     ((0, 2), {[ (0, 2) ]})].
Proof. vm_compute. reflexivity. Qed.

(** C4: when the popped node stands on a dirty cell, the loop of either
    strategy goes on with the node that has the same position, the dirty
    set without that position and the actions extended by V: the goal test
    reads this node, the successors are created from it, the expanded
    counter grows by one for the pop and the generated counter only by the
    successors pushed. *)
Theorem vacuum_transition {F} (push : F → RobotState → F)
    (pop : F → option (RobotState * F)) cols rows world st cur fr :
  pop (frontier st) = Some (cur, fr) →
  position cur ∈ dirty_cells cur →
  let cur' := mkRobotState (position cur) (dirty_cells cur ∖ {[ position cur ]})
                (path cur ++ ["V"%string]) in
  vacuum cur = cur'
  ∧ step push pop cols rows world st =
      if decide (dirty_cells cur' = ∅)
      then inl (Solved (path cur') (gen st) (exp st + 1)%nat)
      else
        match successors cols rows world cur' with
        | None => inl IndexError
        | Some news =>
            let fresh := filter (λ n, key_of n ∉ explored st) news in
            inr (mkSearchState (foldl push fr fresh)
                   (explored st ∪ list_to_set (key_of <$> fresh))
                   (gen st + length fresh)%nat (exp st + 1)%nat)
        end.
Proof.
  intros Hpop Hin cur'.
  assert (vacuum cur = cur') as Hv by (unfold vacuum; by rewrite decide_True).
  split; [done|]. by rewrite step_unfold, Hpop, Hv.
Qed.

Lemma vacuum_transition_witness :
  vacuum dirty_node
  = mkRobotState (position dirty_node)
      (dirty_cells dirty_node ∖ {[ position dirty_node ]})
      (path dirty_node ++ ["V"%string])
  ∧ step dfs_push dfs_pop 3 1 tiny_world dirty_node_state
    = inl (Solved ["W"; "V"]%string 1 2).
Proof.
  apply (vacuum_transition dfs_push dfs_pop 3 1 tiny_world dirty_node_state
           dirty_node []).
  - reflexivity.
  - vm_compute. reflexivity.
Defined.

Lemma passable_decide cols rows world nr nc ok :
  passable cols rows world nr nc = Some ok →
  ok = bool_decide (0 ≤ nr < rows ∧ 0 ≤ nc < cols
                    ∧ cell world nr nc ≠ Some "#"%char).
Proof.
  unfold passable.
  destruct (bool_decide (0 ≤ _ < rows) && bool_decide (0 ≤ _ < cols)) eqn:Hb.
  - apply andb_true_iff in Hb as [?%bool_decide_eq_true ?%bool_decide_eq_true].
    destruct (cell world _ _) as [ch|] eqn:Hc; [|done]. simpl.
    intros [= <-]. apply bool_decide_ext. split.
    + intros Hne. split_and!; [lia..|congruence].
    + intros (_ & _ & Hne) ->. by apply Hne.
  - intros [= <-]. apply andb_false_iff in Hb. symmetry.
    apply bool_decide_eq_false_2. intros (? & ? & _).
    destruct Hb as [Hb|Hb]; by apply bool_decide_eq_false in Hb.
Qed.

Lemma successors_of_spec cols rows world s ds l :
  successors_of cols rows world s ds = Some l →
  l = omap (λ '(label, (dr, dc)),
          let target := ((position s).1 + dr, (position s).2 + dc) in
          if bool_decide (0 ≤ target.1 < rows ∧ 0 ≤ target.2 < cols
                          ∧ cell world target.1 target.2 ≠ Some "#"%char)
          then Some (mkRobotState target (dirty_cells s) (path s ++ [label]))
          else None) ds.
Proof.
  revert l. induction ds as [|[a [dr dc]] ds IH]; intros l.
  { by intros [= <-]. }
  rewrite succs_cons. unfold successor at 1.
  destruct (passable cols rows world _ _) as [ok|] eqn:Hp; [|done]. simpl.
  destruct (successors_of cols rows world s ds) as [l'|]; [|done]. simpl.
  intros [= <-]. specialize (IH l' eq_refl). subst l'.
  cbn [fst snd]. rewrite <- (passable_decide _ _ _ _ _ _ Hp). by destruct ok.
Qed.

(** C5: the inner loop of either strategy tries North, South, East, West
    in this order. On a validated world the states it creates from a node
    are exactly those of the specification's successor rule: a successor
    in a direction is created if and only if the target lies within the
    grid bounds and its cell is not a wall, and it carries the target
    position, the parent's dirty set and the parent's actions plus the
    label. The loop pushes, in this order, exactly the created states
    whose key is not yet in the explored set, recording each key and
    counting each push. *)
Theorem successor_generation {F} (push : F → RobotState → F)
    cols rows world cur fr X g :
  wf_world cols rows world →
  directions.*1 = ["N"; "S"; "E"; "W"]%string
  ∧ successors cols rows world cur = Some (successors_spec cols rows world cur)
  ∧ (∀ a dr dc, (a, (dr, dc)) ∈ directions →
       mkRobotState ((position cur).1 + dr, (position cur).2 + dc)
         (dirty_cells cur) (path cur ++ [a])
       ∈ successors_spec cols rows world cur
       ↔ 0 ≤ (position cur).1 + dr < rows ∧ 0 ≤ (position cur).2 + dc < cols
         ∧ ∃ ch, cell world ((position cur).1 + dr) ((position cur).2 + dc) = Some ch
                 ∧ ch ≠ "#"%char)
  ∧ foldl (generate push cols rows world (position cur).1 (position cur).2 cur)
      (Some (fr, X, g)) directions
    = let fresh := filter (λ n, key_of n ∉ X) (successors_spec cols rows world cur) in
      Some (foldl push fr fresh, X ∪ list_to_set (key_of <$> fresh),
            (g + length fresh)%nat).
Proof.
  intros Hwf.
  assert (successors cols rows world cur = Some (successors_spec cols rows world cur))
    as Hsucc.
  { destruct (successors_wf cols rows world cur Hwf) as [l Hl]. rewrite Hl. f_equal.
    by apply successors_of_spec in Hl. }
  split_and!.
  - reflexivity.
  - exact Hsucc.
  - intros a dr dc Hd. split.
    + intros Hin.
      destruct (succs_elem _ _ _ _ _ _ _ Hsucc Hin) as (a0 & dr0 & dc0 & _ & Hs).
      apply successor_position in Hs as [[= Hr Hc _] Hp].
      rewrite <- Hr, <- Hc in Hp. by apply passable_true in Hp.
    + intros (Hr & Hc & ch & Hcell & Hch).
      apply (succs_complete _ _ _ _ _ _ a dr dc Hsucc Hd).
      unfold passable. rewrite !bool_decide_eq_true_2 by done. simpl.
      rewrite Hcell. simpl. by rewrite bool_decide_eq_true_2.
  - rewrite (foldl_push_generate push cols rows world cur directions directions_NoDup).
    unfold successors in Hsucc. by rewrite Hsucc.
Qed.

Lemma successor_generation_witness :
  directions.*1 = ["N"; "S"; "E"; "W"]%string
  ∧ successors 3 1 tiny_world tiny_start = Some (successors_spec 3 1 tiny_world tiny_start)
  ∧ (∀ a dr dc, (a, (dr, dc)) ∈ directions →
       mkRobotState ((position tiny_start).1 + dr, (position tiny_start).2 + dc)
         (dirty_cells tiny_start) (path tiny_start ++ [a])
       ∈ successors_spec 3 1 tiny_world tiny_start
       ↔ 0 ≤ (position tiny_start).1 + dr < 1 ∧ 0 ≤ (position tiny_start).2 + dc < 3
         ∧ ∃ ch, cell tiny_world ((position tiny_start).1 + dr)
                   ((position tiny_start).2 + dc) = Some ch
                 ∧ ch ≠ "#"%char).
Proof.
  destruct (successor_generation dfs_push 3 1 tiny_world tiny_start [] ∅ 0%nat)
    as (Horder & Hsucc & Hiff & _).
  - split; [reflexivity|]. repeat constructor.
  - exact (conj Horder (conj Hsucc Hiff)).
Defined.

Lemma built_is_heap pq : built pq → heapq.is_heap entry_lt pq.
Proof.
  induction 1 as [|pq e _ IH|pq e rest _ IH Hpop].
  - apply heapq_facts.is_heap_nil.
  - by apply heapq_facts.heappush_is_heap; [apply entry_lt_asym|apply entry_le_trans|].
  - by eapply heapq_facts.heappop_spec; [apply entry_lt_asym|apply entry_le_trans| |].
Qed.

(** The priority queue of the uniform-cost loop is built by the two heapq
    operations only. *)
Lemma ucs_init_built start : built (frontier (ucs_init start)).
Proof. apply built_push, built_nil. Qed.

Lemma ucs_step_built cols rows world st st' :
  built (frontier st) →
  step ucs_push ucs_pop cols rows world st = inr st' →
  built (frontier st').
Proof.
  intros Hb. rewrite step_unfold. unfold ucs_pop.
  destruct (heapq.heappop entry_lt (frontier st)) as [[e pq1]|] eqn:Hpop; [|done].
  simpl. case_decide; [done|].
  destruct (successors cols rows world (vacuum e.2)) as [news|]; [|done].
  intros [= <-]. simpl.
  assert (built pq1) as Hb1 by by eapply built_pop.
  generalize (filter (λ n, key_of n ∉ explored st) news). intros l.
  clear Hpop. revert pq1 Hb1. induction l as [|n l IH]; intros pq1 Hb1; [done|].
  simpl. apply IH. by apply built_push.
Qed.

(** C10: the order on states compares the numbers of remaining dirty
    cells only; and in a priority queue built by [heappush] and [heappop],
    an entry that stays behind with the same path length as the popped one
    does not have fewer dirty cells than the popped one. *)
Theorem dirty_count_tie_break :
  (∀ s1 s2, RobotState_lt s1 s2 = true
            ↔ (size (dirty_cells s1) < size (dirty_cells s2))%nat)
  ∧ ∀ pq e rest e',
      built pq → heapq.heappop entry_lt pq = Some (e, rest) →
      e' ∈ rest → e'.1 = e.1 →
      (size (dirty_cells e.2) ≤ size (dirty_cells e'.2))%nat.
Proof.
  split.
  - intros s1 s2. unfold RobotState_lt. apply bool_decide_eq_true.
  - intros pq e rest e' Hb Hpop Hin Hlen.
    pose proof (heapq_facts.heappop_min entry_lt entry_lt_asym entry_le_trans
                  pq e rest e' (built_is_heap pq Hb) Hpop Hin) as Hle.
    apply entry_le_spec in Hle. lia.
Qed.

Lemma dirty_count_tie_break_witness :
  (size (dirty_cells one_dirty_node) ≤ size (dirty_cells two_dirty_node))%nat.
Proof.
  apply (proj2 dirty_count_tie_break
           (heapq.heappush entry_lt
              (heapq.heappush entry_lt [] (1%nat, two_dirty_node))
              (1%nat, one_dirty_node))
           (1%nat, one_dirty_node) [(1%nat, two_dirty_node)] (1%nat, two_dirty_node)).
  - apply built_push, built_push, built_nil.
  - vm_compute. reflexivity.
  - by left.
  - reflexivity.
Defined.

(** The depth-first strategy may return a longer solution than needed: in
    this world it walks around the wall (seven actions) where three
    actions are enough. *)
Example dfs_not_minimal :
  main dfs 3 3 ["_*_"; "_#@"; "___"]%string 20
  = Some (Solved ["S"; "W"; "W"; "N"; "N"; "E"; "V"]%string 8 7)
  ∧ main ucs 3 3 ["_*_"; "_#@"; "___"]%string 20
    = Some (Solved ["N"; "W"; "V"]%string 5 5).
Proof. split; vm_compute; reflexivity. Qed.

(* ===================================================================== *)
(** ** Uniform-cost search returns a shortest solution *)
(* ===================================================================== *)

Section Optimal.
Variables (cols rows : Z) (world : World) (k0 : Key).

Local Abbreviation cleans' := (cleans cols rows world).
Local Abbreviation opt_inv' := (opt_inv cols rows world k0).

Lemma foldl_ucs_push pq l :
  heapq.is_heap entry_lt pq →
  heapq.is_heap entry_lt (foldl ucs_push pq l)
  ∧ foldl ucs_push pq l ≡ₚ ((λ n, (length (path n), n)) <$> l) ++ pq.
Proof.
  revert pq. induction l as [|n l IH]; intros pq Hh; [done|]. simpl.
  destruct (IH (ucs_push pq n)) as [Hh' Hperm].
  { by apply heapq_facts.heappush_is_heap; [apply entry_lt_asym|apply entry_le_trans|]. }
  split; [done|]. rewrite Hperm. unfold ucs_push.
  rewrite heapq_facts.heappush_perm. by rewrite Permutation_middle.
Qed.

(** Nothing cleans in zero actions while dirt is left. *)
Lemma cleans_nonempty p D l : cleans' (p, D) l → D ≠ ∅ → (1 ≤ length l)%nat.
Proof.
  intros [q Hq] HD. destruct l; simpl in *; [|lia]. by injection Hq as -> ->.
Qed.

(** Some entry of the queue lies on a way to the goal that is no longer
    than any given cleaning sequence. *)
Lemma opt_frontier_witness G C st :
  opt_inv' G C st →
  ∀ l k, k ∈ explored st ∨ k = k0 → cleans' k l →
    ∃ e l', e ∈ frontier st ∧ cleans' (key_of e.2) l'
      ∧ (e.1 + length l' ≤ G k + length l)%nat.
Proof.
  intros Hinv l. induction l as [l IH] using (induction_ltof1 _ length).
  unfold ltof in IH. intros k Hk Hl.
  destruct (opt_cover _ _ _ _ _ _ _ Hinv k Hk) as [HC|(e & He & Hkey & Hg)].
  - destruct k as [p D].
    destruct (opt_closed _ _ _ _ _ _ _ Hinv p D HC) as [HD Hsucc].
    destruct (cleans_advance _ _ _ _ _ _ Hl HD)
      as (a & dr & dc & l' & Hd & Hp & Hl' & Hlen).
    destruct (Hsucc a dr dc Hd Hp) as [HX HG].
    destruct (IH l' ltac:(lia) _ (or_introl HX) Hl') as (e & l2 & He & Hl2 & Hle).
    exists e, l2. split_and!; [done..|]. lia.
  - exists e, l. rewrite Hkey. split_and!; [done..|]. lia.
Qed.

(** The goal test succeeds only with a shortest cleaning sequence. *)
Lemma opt_goal G C st e pq1 acts :
  opt_inv' G C st →
  heapq.heappop entry_lt (frontier st) = Some (e, pq1) →
  dirty_cells (vacuum e.2) = ∅ →
  cleans' k0 acts →
  (length (path (vacuum e.2)) ≤ length acts)%nat.
Proof.
  intros Hinv Hpop Hgoal Hacts.
  destruct (heapq_facts.heappop_spec entry_lt entry_lt_asym entry_le_trans _ _ _
              (opt_heap _ _ _ _ _ _ _ Hinv) Hpop) as (_ & Hperm & _).
  assert (e ∈ frontier st) as He by (rewrite Hperm; by left).
  destruct (opt_frontier_witness G C st Hinv acts k0 (or_intror eq_refl) Hacts)
    as (e' & l' & He' & Hl' & Hle).
  rewrite (opt_start _ _ _ _ _ _ _ Hinv) in Hle.
  rewrite vacuum_path, length_app, <- (opt_len _ _ _ _ _ _ _ Hinv e He).
  case_decide as Hdirty; simpl; [|].
  - assert (dirty_cells e.2 ≠ ∅) as Hne by set_solver.
    rewrite Hperm in He'. apply elem_of_cons in He' as [->|He'].
    + pose proof (cleans_nonempty _ _ _ Hl' Hne). lia.
    + pose proof (heapq_facts.heappop_min entry_lt entry_lt_asym entry_le_trans
                    _ _ _ e' (opt_heap _ _ _ _ _ _ _ Hinv) Hpop He') as Hmin.
      apply entry_le_spec in Hmin as [Hlt|[Heq Hsize]]; [lia|].
      assert (dirty_cells e'.2 ≠ ∅) as Hne'.
      { intros Hempty. rewrite Hempty, size_empty in Hsize.
        apply Hne. apply leibniz_equiv, size_empty_inv. lia. }
      pose proof (cleans_nonempty _ _ _ Hl' Hne'). lia.
  - rewrite Hperm in He'. apply elem_of_cons in He' as [->|He']; [lia|].
    pose proof (heapq_facts.heappop_min entry_lt entry_lt_asym entry_le_trans
                  _ _ _ e' (opt_heap _ _ _ _ _ _ _ Hinv) Hpop He') as Hmin.
    apply entry_le_spec in Hmin. lia.
Qed.

(** One iteration that continues keeps the invariant, for the lengths and
    the expanded keys updated by the popped entry. *)
Lemma opt_step G C st e pq1 news :
  opt_inv' G C st →
  heapq.heappop entry_lt (frontier st) = Some (e, pq1) →
  dirty_cells (vacuum e.2) ≠ ∅ →
  successors cols rows world (vacuum e.2) = Some news →
  let fresh := filter (λ n, key_of n ∉ explored st) news in
  ∀ gen' exp',
  ∃ G' C', opt_inv' G' C'
    (mkSearchState (foldl ucs_push pq1 fresh)
       (explored st ∪ list_to_set (key_of <$> fresh)) gen' exp').
Proof.
  intros Hinv Hpop Hdirty Hnews fresh gen' exp'.
  destruct Hinv as [Hheap Hlen Hstart Hstarted Hkeys Hcost HCkeys Hcover Hclosed Hrank].
  destruct (heapq_facts.heappop_spec entry_lt entry_lt_asym entry_le_trans _ _ _
              Hheap Hpop) as (Hheap1 & Hperm & _).
  pose proof (λ e1, heapq_facts.heappop_min entry_lt entry_lt_asym entry_le_trans
                _ _ _ e1 Hheap Hpop) as Hmin.
  destruct (foldl_ucs_push pq1 fresh Hheap1) as [Hheap' Hperm'].
  assert (He : e ∈ frontier st) by (rewrite Hperm; by left).
  assert (Hpq1 : ∀ e1, e1 ∈ pq1 → e1 ∈ frontier st).
  { intros e1 ?. rewrite Hperm. by right. }
  set (p := position e.2) in *. set (D := dirty_cells e.2) in *.
  set (D' := D ∖ {[ p ]}).
  set (g' := length (path (vacuum e.2))).
  assert (HD' : dirty_cells (vacuum e.2) = D') by apply vacuum_dirty.
  assert (Hg' : (g' + size D' = e.1 + size D)%nat ∧ (size D' ≤ size D)%nat
                ∧ (size D ≤ size D' + 1)%nat
                ∧ g' = (e.1 + (if decide (p ∈ D) then 1 else 0))%nat).
  { unfold g'. rewrite vacuum_path, length_app, <- (Hlen e He). fold p D.
    assert (size D' ≤ size D)%nat by (apply subseteq_size; set_solver).
    case_decide as Hin; simpl.
    - assert (size D' = (size D - 1)%nat) as Hminus.
      { unfold D'. rewrite size_difference by set_solver. by rewrite size_singleton. }
      assert (1 ≤ size D)%nat as Hpos.
      { rewrite <- (size_singleton (C := gset Position) p).
        apply subseteq_size. set_solver. }
      lia.
    - replace D' with D by set_solver. lia. }
  destruct Hg' as (Hpot & HsizeD & HsizeD1 & Hg'eq).
  (* the fresh successors *)
  assert (Hfresh : ∀ m, m ∈ fresh →
    (key_of m ∉ explored st) ∧ dirty_cells m = D'
    ∧ length (path m) = (g' + 1)%nat).
  { intros m [Hm Hin]%list_elem_of_filter. split; [done|].
    destruct (succs_elem _ _ _ _ _ _ _ Hnews Hin) as (a & dr & dc & Hd & Hs).
    apply successor_position in Hs as [-> _]. simpl.
    split; [done|]. rewrite length_app. simpl. done. }
  assert (Hentries : ∀ e1, e1 ∈ foldl ucs_push pq1 fresh ↔
            (∃ m, m ∈ fresh ∧ e1 = (length (path m), m)) ∨ e1 ∈ pq1).
  { intros e1. rewrite Hperm', elem_of_app, list_elem_of_fmap. naive_solver. }
  set (K := list_to_set (key_of <$> fresh) : gset Key).
  assert (HK : ∀ k, k ∈ K ↔ ∃ m, m ∈ fresh ∧ key_of m = k).
  { intros k. unfold K. rewrite elem_of_list_to_set, list_elem_of_fmap. naive_solver. }
  assert (HKX : ∀ k, k ∈ K → k ∉ explored st).
  { intros k (m & Hm & <-)%HK. by apply Hfresh. }
  assert (HKD : ∀ k, k ∈ K → k.2 = D').
  { intros k (m & Hm & <-)%HK. by apply Hfresh. }
  set (G' := λ k, if decide (k ∈ K ∧ k ≠ k0) then (g' + 1)%nat else G k).
  assert (HGold : ∀ k, k ∈ explored st ∨ k = k0 → G' k = G k).
  { intros k Hk. unfold G'. cbv beta.
    destruct (decide (k ∈ K ∧ k ≠ k0)) as [Hdec|Hdec]; [|done].
    destruct Hdec as [HkK Hne]. destruct Hk; [by apply HKX in HkK|done]. }
  assert (HGnew : ∀ k, k ∈ K → k ≠ k0 → G' k = (g' + 1)%nat).
  { intros k HkK Hne. unfold G'. cbv beta. by rewrite decide_True. }
  assert (Hk0 : k0 ∈ C ∪ {[ key_of e.2 ]}).
  { apply elem_of_union. destruct Hstarted as [?|HX]; [by left|].
    destruct (Hkeys e He) as [Hin|Heq].
    - rewrite HX in Hin. by apply not_elem_of_empty in Hin.
    - right. by apply elem_of_singleton. }
  exists G', (C ∪ {[ key_of e.2 ]}).
  split; simpl.
  - done.
  - intros e1 [(m & Hm & ->)|He1]%Hentries; [done|]. by apply Hlen, Hpq1.
  - rewrite HGold; [done|by right].
  - by left.
  - intros e1 [(m & Hm & ->)|He1]%Hentries; simpl.
    + left. apply elem_of_union. right. apply HK. by exists m.
    + destruct (Hkeys e1 (Hpq1 _ He1)); [left; apply elem_of_union; by left|by right].
  - intros e1 [(m & Hm & ->)|He1]%Hentries; simpl.
    + destruct (decide (key_of m = k0)) as [->|Hne]; [by right|].
      left. rewrite HGnew; [by apply Hfresh| |done]. apply HK. by exists m.
    + destruct (Hcost e1 (Hpq1 _ He1)) as [Heq|?]; [|right; apply elem_of_union; by left].
      left. rewrite HGold; [done|]. by apply Hkeys, Hpq1.
  - intros k [Hk|Hk%elem_of_singleton]%elem_of_union.
    + destruct (HCkeys k Hk); [left; apply elem_of_union; by left|by right].
    + subst k. destruct (Hkeys e He); [left; apply elem_of_union; by left|by right].
  - intros k Hk.
    assert (k ∈ K ∨ (k ∈ explored st ∨ k = k0)) as [HkK|Hold].
    { destruct Hk as [[?|?]%elem_of_union|?]; auto. }
    + destruct (decide (k = k0)) as [->|Hne]; [by left|].
      right. apply HK in HkK as (m & Hm & <-).
      exists (length (path m), m). split_and!; [|done|].
      * apply Hentries. left. by exists m.
      * simpl. rewrite HGnew; [by apply Hfresh| |done]. apply HK. by exists m.
    + destruct (Hcover k Hold) as [?|(e0 & He0 & Hkey & Hg)];
        [left; apply elem_of_union; by left|].
      rewrite Hperm in He0. apply elem_of_cons in He0 as [->|He0].
      * left. apply elem_of_union. right. by apply elem_of_singleton.
      * right. exists e0. split_and!; [|done|].
        -- apply Hentries. by right.
        -- by rewrite HGold.
  - intros p1 D1 Hin.
    assert (Hold : (p1, D1) ∈ C →
      D1 ∖ {[p1]} ≠ ∅
      ∧ ∀ a dr dc, (a, (dr, dc)) ∈ directions →
          passable cols rows world (p1.1 + dr) (p1.2 + dc) = Some true →
          ((p1.1 + dr, p1.2 + dc), D1 ∖ {[p1]}) ∈ explored st ∪ K
          ∧ (G' (((p1.1 + dr)%Z, (p1.2 + dc)%Z), D1 ∖ {[p1]})
             ≤ G' (p1, D1) + (if decide (p1 ∈ D1) then 1 else 0) + 1)%nat).
    { intros HC. destruct (Hclosed p1 D1 HC) as [HD1 Hsucc]. split; [done|].
      intros a dr dc Hd Hp. destruct (Hsucc a dr dc Hd Hp) as [HX HG].
      split; [apply elem_of_union; by left|].
      rewrite !HGold; [done|by apply HCkeys|by left]. }
    destruct (decide ((p1, D1) ∈ C)) as [HC|HnC]; [by apply Hold|].
    assert ((p1, D1) = key_of e.2) as Heq.
    { by apply elem_of_union in Hin as [?|?%elem_of_singleton]. }
    unfold key_of in Heq. fold p D in Heq. injection Heq as -> ->.
    split; [change (D' ≠ ∅); by rewrite <- HD'|].
    intros a dr dc Hd Hp. fold D'.
    pose proof (succs_complete cols rows world (vacuum e.2) directions news a dr dc) as Hm.
    rewrite vacuum_position, HD' in Hm. fold p in Hm. specialize (Hm Hnews Hd Hp).
    set (m := mkRobotState _ _ _) in Hm.
    destruct (Hcost e He) as [HeG|?]; [|done]. fold (key_of e.2) in HeG.
    assert (G' (p, D) = e.1) as HGp.
    { rewrite HGold; [done|]. by apply Hkeys. }
    rewrite HGp, <- Hg'eq.
    destruct (decide (key_of m ∈ explored st)) as [HX|HX].
    + split; [apply elem_of_union; by left|].
      change ((p.1 + dr, p.2 + dc, D')) with (key_of m).
      rewrite HGold by by left.
      pose proof (Hrank (key_of m) e (or_introl HX) He) as Hr. simpl in Hr.
      fold D in Hr. specialize (Hr HsizeD). lia.
    + assert (key_of m ∈ K) as HmK.
      { apply HK. exists m. split; [|done]. by apply list_elem_of_filter. }
      split; [apply elem_of_union; by right|].
      change ((p.1 + dr, p.2 + dc, D')) with (key_of m).
      destruct (decide (key_of m = k0)) as [Hk|Hk].
      * rewrite Hk, HGold, Hstart by by right. lia.
      * rewrite HGnew by done. lia.
  - intros k e1 Hk He1 Hsize.
    assert (k ∈ K ∨ (k ∈ explored st ∨ k = k0)) as [HkK|Hold].
    { destruct Hk as [[?|?]%elem_of_union|?]; auto. }
    + destruct (decide (k = k0)) as [->|Hne].
      { rewrite HGold, Hstart by by right. lia. }
      rewrite HGnew by done. rewrite (HKD k HkK) in *.
      apply Hentries in He1 as [(m & Hm & ->)|He1]; simpl in *.
      * destruct (Hfresh m Hm) as (_ & -> & ->). lia.
      * specialize (Hmin e1 He1). apply entry_le_spec in Hmin. fold D in Hmin. lia.
    + rewrite HGold by done.
      apply Hentries in He1 as [(m & Hm & ->)|He1]; simpl in *.
      * destruct (Hfresh m Hm) as (_ & HmD & ->). rewrite HmD in *.
        pose proof (Hrank k e Hold He) as Hr. fold D in Hr. lia.
      * by apply Hrank; [|apply Hpq1|].
Qed.

Lemma opt_init start :
  path start = [] → key_of start = k0 →
  opt_inv' (λ _, 0%nat) ∅ (ucs_init start).
Proof.
  intros Hpath Hkey.
  assert (Hfr : ∀ e, e ∈ frontier (ucs_init start) → e = (0%nat, start)).
  { intros e. change (frontier (ucs_init start)) with [(0%nat, start)].
    by intros ->%list_elem_of_singleton. }
  split.
  - apply heapq_facts.heappush_is_heap, heapq_facts.is_heap_nil;
      [apply entry_lt_asym|apply entry_le_trans].
  - intros e ->%Hfr. simpl. by rewrite Hpath.
  - done.
  - by right.
  - intros e ->%Hfr. by right.
  - intros e ->%Hfr. by left.
  - intros k Hk. by apply not_elem_of_empty in Hk.
  - intros k [Hk| ->]; [by apply not_elem_of_empty in Hk|].
    right. exists (0%nat, start). split_and!; [by left|done..].
  - intros p D Hk. by apply not_elem_of_empty in Hk.
  - intros k e _ _ Hsize. lia.
Qed.

(** Whatever the loop returns as a solution is at most as long as any
    cleaning sequence. *)
Lemma ucs_loop_optimal fuel : ∀ st G C,
  opt_inv' G C st →
  ∀ acts g e,
    search_loop ucs_push ucs_pop cols rows world fuel st = Solved acts g e →
    ∀ acts', cleans' k0 acts' → (length acts ≤ length acts')%nat.
Proof.
  induction fuel as [|fuel IH]; intros st G C Hinv acts g e; [done|].
  cbn [search_loop]. rewrite step_unfold. unfold ucs_pop.
  destruct (heapq.heappop entry_lt (frontier st)) as [[e1 pq1]|] eqn:Hpop; [|done].
  simpl. case_decide as Hgoal.
  - intros [= <- _ _] acts' Hacts'. by eapply opt_goal.
  - destruct (successors cols rows world (vacuum e1.2)) as [news|] eqn:Hnews; [|done].
    destruct (opt_step G C st e1 pq1 news Hinv Hpop Hgoal Hnews
                (gen st + length (filter (λ n, key_of n ∉ explored st) news))%nat
                (exp st + 1)%nat) as (G' & C' & Hinv').
    by apply (IH _ G' C').
Qed.

End Optimal.

(** C1: in a validated world that some action sequence cleans, the
    uniform-cost strategy returns a solution, its actions clean every dirty
    cell, and no action sequence that cleans every dirty cell is shorter
    (moves and vacuum actions counted alike). *)
Theorem ucs_optimal cols rows world pos dirty fuel acts0 :
  wf_world cols rows world →
  cleans cols rows world (pos, dirty) acts0 →
  (fuel_bound cols rows dirty ≤ fuel)%nat →
  ∃ acts g e,
    ucs cols rows world (mkRobotState pos dirty []) fuel = Solved acts g e
    ∧ cleans cols rows world (pos, dirty) acts
    ∧ ∀ acts', cleans cols rows world (pos, dirty) acts' →
        (length acts ≤ length acts')%nat.
Proof.
  intros Hwf Hsol Hfuel.
  pose proof (ucs_run_ok cols rows world pos dirty fuel) as Hu.
  destruct (ucs cols rows world _ fuel) as [acts g e|g e| |] eqn:Hrun; simpl in Hu.
  - exists acts, g, e. split_and!; [done|by destruct Hu|].
    apply (ucs_loop_optimal cols rows world (pos, dirty) fuel
             (ucs_init (mkRobotState pos dirty [])) (λ _, 0%nat) ∅
             (opt_init cols rows world (pos, dirty) (mkRobotState pos dirty [])
                eq_refl eq_refl) acts g e Hrun).
  - destruct Hu as [Hnone _]. by apply Hnone in Hsol.
  - done.
  - lia.
Qed.

Lemma ucs_optimal_witness :
  ∃ acts g e,
    ucs 3 1 far_world (mkRobotState (0, 2) far_dirty []) 8 = Solved acts g e
    ∧ cleans 3 1 far_world ((0, 2), far_dirty) acts
    ∧ ∀ acts', cleans 3 1 far_world ((0, 2), far_dirty) acts' →
        (length acts ≤ length acts')%nat.
Proof.
  apply (ucs_optimal 3 1 far_world (0, 2) far_dirty 8 ["W"; "W"; "V"]%string).
  - split; [reflexivity|]. repeat constructor.
  - exists (0, 0). vm_compute. reflexivity.
  - vm_compute. lia.
Defined.

(* ===================================================================== *)
(** ** Loading a world: what [read_input] returns *)
(* ===================================================================== *)

(** The character [read_input] stores for a character of the file. *)
Lemma scan_row_spec rind row : ∀ cind robot_pos dirty,
  ∃ rp d,
    scan_row rind cind row robot_pos dirty
    = ((λ ch, if bool_decide (ch = "@"%char) then "_"%char else ch) <$> row, rp, d)
    ∧ (∀ p, p ∈ d ↔ p ∈ dirty
            ∨ ∃ j : nat, row !! j = Some "*"%char ∧ p = (rind, cind + Z.of_nat j))
    ∧ ((rp = robot_pos ∧ "@"%char ∉ row)
       ∨ ∃ j : nat, rp = Some (rind, cind + Z.of_nat j) ∧ row !! j = Some "@"%char
           ∧ ∀ j' : nat, row !! j' = Some "@"%char → (j' ≤ j)%nat).
Proof.
  induction row as [|ch row IH]; intros cind robot_pos dirty.
  - exists robot_pos, dirty. simpl. split; [done|]. split.
    + intros p. split; [by left|]. intros [?|(j & ? & _)]; [done|].
      by rewrite lookup_nil in *.
    + left. split; [done|]. apply not_elem_of_nil.
  - cbn [scan_row]. destruct (bool_decide (ch = "@"%char)) eqn:Hat.
    + apply bool_decide_eq_true in Hat as ->.
      destruct (IH (cind + 1) (Some (rind, cind)) dirty) as (rp & d & -> & Hd & Hrp).
      exists rp, d. split; [done|]. split.
      * intros p. rewrite Hd. split.
        -- intros [?|(j & Hj & ->)]; [by left|]. right. exists (S j).
           split; [done|]. f_equal. lia.
        -- intros [?|(j & Hj & ->)]; [by left|]. destruct j as [|j]; [done|].
           right. exists j. split; [done|]. f_equal. lia.
      * right. destruct Hrp as [[-> Hno]|(j & -> & Hj & Hlast)].
        -- exists 0%nat. split; [f_equal; f_equal; lia|]. split; [done|].
           intros [|j'] Hj'; [lia|]. exfalso. apply Hno.
           by apply (list_elem_of_lookup_2 _ j').
        -- exists (S j). split; [f_equal; f_equal; lia|]. split; [done|].
           intros [|j'] Hj'; [lia|]. specialize (Hlast j' Hj'). lia.
    + apply bool_decide_eq_false in Hat.
      destruct (bool_decide (ch = "*"%char)) eqn:Hst.
      * apply bool_decide_eq_true in Hst as ->.
        destruct (IH (cind + 1) robot_pos (dirty ∪ {[ (rind, cind) ]}))
          as (rp & d & -> & Hd & Hrp).
        exists rp, d. split; [done|]. split.
        -- intros p. rewrite Hd, elem_of_union, elem_of_singleton. split.
           ++ intros [[?| ->]|(j & Hj & ->)]; [by left| |].
              ** right. exists 0%nat. split; [done|]. f_equal. lia.
              ** right. exists (S j). split; [done|]. f_equal. lia.
           ++ intros [?|(j & Hj & ->)]; [by left; left|]. destruct j as [|j].
              ** left; right. f_equal. lia.
              ** right. exists j. split; [done|]. f_equal. lia.
        -- destruct Hrp as [[-> Hno]|(j & -> & Hj & Hlast)].
           ++ left. split; [done|]. by intros [?|?]%elem_of_cons.
           ++ right. exists (S j). split; [f_equal; f_equal; lia|]. split; [done|].
              intros [|j'] Hj'; [lia|]. specialize (Hlast j' Hj'). lia.
      * apply bool_decide_eq_false in Hst.
        destruct (IH (cind + 1) robot_pos dirty) as (rp & d & -> & Hd & Hrp).
        exists rp, d. split; [simpl; by rewrite bool_decide_eq_false_2|]. split.
        -- intros p. rewrite Hd. split.
           ++ intros [?|(j & Hj & ->)]; [by left|]. right. exists (S j).
              split; [done|]. f_equal. lia.
           ++ intros [?|(j & Hj & ->)]; [by left|]. destruct j as [|j].
              ** simpl in Hj. congruence.
              ** right. exists j. split; [done|]. f_equal. lia.
        -- destruct Hrp as [[-> Hno]|(j & -> & Hj & Hlast)].
           ++ left. split; [done|]. by intros [?|?]%elem_of_cons.
           ++ right. exists (S j). split; [f_equal; f_equal; lia|]. split; [done|].
              intros [|j'] Hj'; [simpl in Hj'; congruence|].
              specialize (Hlast j' Hj'). lia.
Qed.

Lemma scan_rows_is_Some world_lines n : ∀ rind grid robot_pos dirty,
  0 ≤ rind →
  is_Some (scan_rows n rind world_lines grid robot_pos dirty)
  ↔ n = 0%nat ∨ (Z.to_nat rind + n ≤ length world_lines)%nat.
Proof.
  induction n as [|n IH]; intros rind grid robot_pos dirty Hr.
  - simpl. split; [by left|by eexists].
  - cbn [scan_rows]. destruct (world_lines !! Z.to_nat rind) as [line|] eqn:Hl; simpl.
    + apply lookup_lt_Some in Hl.
      destruct (scan_row_spec rind (String.list_ascii_of_string line) 0 robot_pos dirty)
        as (rp & d & -> & _). rewrite IH by lia. lia.
    + apply lookup_ge_None in Hl. split; [by intros [? ?]|]. lia.
Qed.

Lemma scan_rows_spec world_lines n : ∀ rind grid robot_pos dirty grid' rp' d',
  0 ≤ rind →
  scan_rows n rind world_lines grid robot_pos dirty = Some (grid', rp', d') →
  let k := Z.to_nat rind in
  grid' = grid ++ ((λ line, (λ ch, if bool_decide (ch = "@"%char) then "_"%char else ch)
                            <$> String.list_ascii_of_string line)
                   <$> take n (drop k world_lines))
  ∧ (∀ p, p ∈ d' ↔ p ∈ dirty
       ∨ ∃ (i j : nat) line, (k ≤ i < k + n)%nat ∧ world_lines !! i = Some line
           ∧ String.list_ascii_of_string line !! j = Some "*"%char
           ∧ p = (Z.of_nat i, Z.of_nat j))
  ∧ ((rp' = robot_pos
      ∧ ∀ (i : nat) line, (k ≤ i < k + n)%nat → world_lines !! i = Some line →
          "@"%char ∉ String.list_ascii_of_string line)
     ∨ ∃ (i j : nat) line, rp' = Some (Z.of_nat i, Z.of_nat j)
         ∧ (k ≤ i < k + n)%nat ∧ world_lines !! i = Some line
         ∧ String.list_ascii_of_string line !! j = Some "@"%char
         ∧ ∀ (i' j' : nat) line', (k ≤ i' < k + n)%nat →
             world_lines !! i' = Some line' →
             String.list_ascii_of_string line' !! j' = Some "@"%char →
             (i' < i)%nat ∨ (i' = i ∧ (j' ≤ j)%nat)).
Proof.
  induction n as [|n IH]; intros rind grid robot_pos dirty grid' rp' d' Hr; cbn [scan_rows].
  - intros [= <- <- <-]. cbv zeta. rewrite take_0, app_nil_r. split; [done|]. split.
    + intros p. split; [by left|]. intros [?|(i & j & line & ? & _)]; [done|lia].
    + left. split; [done|]. intros; lia.
  - destruct (world_lines !! Z.to_nat rind) as [line|] eqn:Hl; [|done]. simpl.
    destruct (scan_row_spec rind (String.list_ascii_of_string line) 0 robot_pos dirty)
      as (rp1 & d1 & -> & Hd1 & Hrp1).
    intros Hs. apply IH in Hs; [|lia]. cbv zeta in Hs. destruct Hs as (-> & Hd & Hrp).
    set (k := Z.to_nat rind) in *.
    replace (Z.to_nat (rind + 1)) with (S k) in * by lia.
    assert (Hrind : rind = Z.of_nat k) by lia.
    split; [|split].
    + rewrite <- app_assoc. f_equal. rewrite (drop_S _ _ _ Hl). done.
    + intros p. rewrite Hd, Hd1. split.
      * intros [[?|(j & Hj & ->)]|(i & j & l' & Hi & Hl' & Hj & ->)]; [by left| |].
        -- right. exists k, j, line. split; [lia|]. split; [done|]. split; [done|].
           f_equal; lia.
        -- right. exists i, j, l'. split; [lia|]. done.
      * intros [?|(i & j & l' & Hi & Hl' & Hj & ->)]; [by left; left|].
        destruct (decide (i = k)) as [->|Hne].
        -- left; right. exists j. rewrite Hl in Hl'. injection Hl' as <-.
           split; [done|]. f_equal; lia.
        -- right. exists i, j, l'. split; [lia|]. done.
    + destruct Hrp as [[-> Hno]|(i & j & l' & -> & Hi & Hl' & Hj & Hlast)].
      * destruct Hrp1 as [[-> Hno1]|(j & -> & Hj & Hlast)].
        -- left. split; [done|]. intros i l' Hi Hl'.
           destruct (decide (i = k)) as [->|Hne].
           ++ rewrite Hl in Hl'. by injection Hl' as <-.
           ++ apply (Hno i); [lia|done].
        -- right. exists k, j, line. split; [f_equal; f_equal; lia|].
           split; [lia|]. split; [done|]. split; [done|].
           intros i' j' l' Hi' Hl' Hj'. destruct (decide (i' = k)) as [->|Hne].
           ++ right. split; [done|]. rewrite Hl in Hl'. injection Hl' as <-. by apply Hlast.
           ++ exfalso. apply (Hno i' l'); [lia|done|]. by apply (list_elem_of_lookup_2 _ j').
      * right. exists i, j, l'. split; [done|]. split; [lia|]. split; [done|].
        split; [done|]. intros i' j' l'' Hi' Hl'' Hj'.
        destruct (decide (i' = k)) as [->|Hne]; [left; lia|].
        apply (Hlast i' j' l''); [lia|done..].
Qed.

Lemma length_list_ascii_of_string s :
  length (String.list_ascii_of_string s) = String.length s.
Proof. induction s as [|ch s IH]; simpl; [done|by f_equal]. Qed.

(** A cell of the grid built from the first [n] lines, read through the
    characters of the file. *)
Lemma cell_loaded (world_lines : list string) (n : nat) r c :
  cell ((λ line, (λ ch, if bool_decide (ch = "@"%char) then "_"%char else ch)
                 <$> String.list_ascii_of_string line) <$> take n world_lines) r c
  = (λ ch, if bool_decide (ch = "@"%char) then "_"%char else ch)
    <$> (if decide (Z.to_nat r < n)%nat
         then cell (String.list_ascii_of_string <$> world_lines) r c else None).
Proof.
  unfold cell. rewrite !list_lookup_fmap. case_decide.
  - rewrite lookup_take_lt by done.
    destruct (world_lines !! Z.to_nat r) as [line|]; [|done]. simpl.
    by rewrite list_lookup_fmap.
  - by rewrite lookup_take_ge by lia.
Qed.

Lemma read_input_spec cols rows world_lines grid robot_pos dirty :
  read_input cols rows world_lines = Some (grid, robot_pos, dirty) →
  let n := Z.to_nat rows in
  grid = (λ line, (λ ch, if bool_decide (ch = "@"%char) then "_"%char else ch)
                  <$> String.list_ascii_of_string line) <$> take n world_lines
  ∧ (∀ p, p ∈ dirty ↔
       ∃ (i j : nat) line, (i < n)%nat ∧ world_lines !! i = Some line
         ∧ String.list_ascii_of_string line !! j = Some "*"%char
         ∧ p = (Z.of_nat i, Z.of_nat j))
  ∧ ((robot_pos = None
      ∧ ∀ (i : nat) line, (i < n)%nat → world_lines !! i = Some line →
          "@"%char ∉ String.list_ascii_of_string line)
     ∨ ∃ (i j : nat) line, robot_pos = Some (Z.of_nat i, Z.of_nat j)
         ∧ (i < n)%nat ∧ world_lines !! i = Some line
         ∧ String.list_ascii_of_string line !! j = Some "@"%char
         ∧ ∀ (i' j' : nat) line', (i' < n)%nat →
             world_lines !! i' = Some line' →
             String.list_ascii_of_string line' !! j' = Some "@"%char →
             (i' < i)%nat ∨ (i' = i ∧ (j' ≤ j)%nat)).
Proof.
  unfold read_input. intros Hs. apply scan_rows_spec in Hs; [|lia].
  cbv zeta in *. change (Z.to_nat 0) with 0%nat in Hs. rewrite drop_0 in Hs.
  destruct Hs as (Hg & Hd & Hrp). split; [done|]. split.
  - intros p. rewrite Hd. split.
    + intros [?%elem_of_empty|(i & j & line & ? & ?)]; [done|].
      exists i, j, line. split; [lia|done].
    + intros (i & j & line & ? & ?). right. exists i, j, line. split; [lia|done].
  - destruct Hrp as [[-> Hno]|(i & j & line & -> & Hi & Hl & Hj & Hlast)].
    + left. split; [done|]. intros i line Hi. apply Hno. lia.
    + right. exists i, j, line. split; [done|]. split; [lia|]. split; [done|].
      split; [done|]. intros i' j' line' Hi'. apply Hlast. lia.
Qed.

(** X1: [read_input] raises (the [IndexError] of [world_lines[rind]])
    exactly when the file holds fewer than [rows] world lines; a negative
    [rows] counts as zero. *)
Theorem read_input_raises cols rows world_lines :
  read_input cols rows world_lines = None
  ↔ (length world_lines < Z.to_nat rows)%nat.
Proof.
  unfold read_input. rewrite eq_None_not_Some, scan_rows_is_Some by lia.
  change (Z.to_nat 0) with 0%nat. lia.
Qed.

(** X2: the grid [read_input] returns is made of the first [rows] world
    lines, character by character, with every start marker replaced by an
    empty cell and every other character kept. *)
Theorem read_input_grid cols rows world_lines grid robot_pos dirty :
  read_input cols rows world_lines = Some (grid, robot_pos, dirty) →
  grid = (λ line, (λ ch, if bool_decide (ch = "@"%char) then "_"%char else ch)
                  <$> String.list_ascii_of_string line)
         <$> take (Z.to_nat rows) world_lines.
Proof. intros Hr. by apply read_input_spec in Hr as (? & _). Qed.

Lemma read_input_grid_witness :
  tiny_world
  = (λ line, (λ ch, if bool_decide (ch = "@"%char) then "_"%char else ch)
             <$> String.list_ascii_of_string line)
    <$> take (Z.to_nat 1) ["_*@"%string].
Proof.
  apply (read_input_grid 3 1 ["_*@"%string] tiny_world (Some (0, 2)) tiny_dirty).
  vm_compute. reflexivity.
Defined.

(** X3: the dirty cells [read_input] returns are exactly the positions of
    the first [rows] rows at which the returned grid holds a dirty
    marker. *)
Theorem read_input_dirty cols rows world_lines grid robot_pos dirty r c :
  read_input cols rows world_lines = Some (grid, robot_pos, dirty) →
  (r, c) ∈ dirty ↔ 0 ≤ r < rows ∧ 0 ≤ c ∧ cell grid r c = Some "*"%char.
Proof.
  intros Hr. apply read_input_spec in Hr as (-> & Hd & _).
  rewrite Hd, cell_loaded. unfold cell. rewrite list_lookup_fmap. split.
  - intros (i & j & line & Hi & Hl & Hj & [= -> ->]).
    split; [lia|]. split; [lia|]. rewrite decide_True by lia.
    rewrite !Nat2Z.id, Hl. simpl. by rewrite Hj.
  - intros (Hr & Hc & Hcell). case_decide as Hlt; [|done].
    destruct (world_lines !! Z.to_nat r) as [line|] eqn:Hl; [|done]. simpl in Hcell.
    destruct (String.list_ascii_of_string line !! Z.to_nat c) as [ch|] eqn:Hj; [|done].
    simpl in Hcell. case_bool_decide; [done|]. injection Hcell as ->.
    exists (Z.to_nat r), (Z.to_nat c), line. split; [done|]. split; [done|].
    split; [done|]. f_equal; lia.
Qed.

Lemma read_input_dirty_witness :
  (0, 1) ∈ tiny_dirty ↔ 0 ≤ 0 < 1 ∧ 0 ≤ 1 ∧ cell tiny_world 0 1 = Some "*"%char.
Proof.
  apply (read_input_dirty 3 1 ["_*@"%string] tiny_world (Some (0, 2)) tiny_dirty).
  vm_compute. reflexivity.
Defined.

(** X4: the start position [read_input] returns lies in one of the first
    [rows] rows, at a start marker of the file; the returned grid holds an
    empty cell there, and the position is not among the dirty cells. *)
Theorem read_input_start cols rows world_lines grid r c dirty :
  read_input cols rows world_lines = Some (grid, Some (r, c), dirty) →
  0 ≤ r < rows ∧ 0 ≤ c
  ∧ cell (String.list_ascii_of_string <$> world_lines) r c = Some "@"%char
  ∧ cell grid r c = Some "_"%char
  ∧ (r, c) ∉ dirty.
Proof.
  intros Hr. apply read_input_spec in Hr as (-> & Hd & Hrp).
  destruct Hrp as [[? _]|(i & j & line & [= -> ->] & Hi & Hl & Hj & _)]; [done|].
  assert (cell (String.list_ascii_of_string <$> world_lines) (Z.of_nat i) (Z.of_nat j)
          = Some "@"%char) as Hfile.
  { unfold cell. by rewrite list_lookup_fmap, !Nat2Z.id, Hl. }
  assert (cell ((λ line, (λ ch, if bool_decide (ch = "@"%char) then "_"%char else ch)
                         <$> String.list_ascii_of_string line)
                <$> take (Z.to_nat rows) world_lines) (Z.of_nat i) (Z.of_nat j)
          = Some "_"%char) as Hgrid.
  { rewrite cell_loaded, decide_True by lia. by rewrite Hfile. }
  split; [lia|]. split; [lia|]. split; [done|]. split; [done|].
  rewrite Hd. intros (i' & j' & line' & _ & Hl' & Hj' & [= Hii Hjj]).
  apply Nat2Z.inj in Hii as <-. apply Nat2Z.inj in Hjj as <-. congruence.
Qed.

Lemma read_input_start_witness :
  0 ≤ 0 < 1 ∧ 0 ≤ 2
  ∧ cell (String.list_ascii_of_string <$> ["_*@"%string]) 0 2 = Some "@"%char
  ∧ cell tiny_world 0 2 = Some "_"%char
  ∧ (0, 2) ∉ tiny_dirty.
Proof.
  apply (read_input_start 3 1 ["_*@"%string] tiny_world 0 2 tiny_dirty).
  vm_compute. reflexivity.
Defined.

(** X5: of several start markers the last one in reading order (row by
    row, left to right) is the one [read_input] returns. *)
Theorem read_input_last_start cols rows world_lines grid r c dirty r' c' :
  read_input cols rows world_lines = Some (grid, Some (r, c), dirty) →
  0 ≤ r' < rows → 0 ≤ c' →
  cell (String.list_ascii_of_string <$> world_lines) r' c' = Some "@"%char →
  r' < r ∨ (r' = r ∧ c' ≤ c).
Proof.
  intros Hr Hr' Hc' Hcell. apply read_input_spec in Hr as (_ & _ & Hrp).
  destruct Hrp as [[? _]|(i & j & line & [= -> ->] & Hi & Hl & Hj & Hlast)]; [done|].
  unfold cell in Hcell. rewrite list_lookup_fmap in Hcell.
  destruct (world_lines !! Z.to_nat r') as [line'|] eqn:Hl'; [|done]. simpl in Hcell.
  specialize (Hlast (Z.to_nat r') (Z.to_nat c') line'). cbv zeta in Hlast.
  destruct Hlast as [?|[? ?]]; [lia|done|done|lia|lia].
Qed.


Lemma read_input_last_start_witness : 0 < 1 ∨ (0 = 1 ∧ 0 ≤ 1).
Proof.
  apply (read_input_last_start 2 2 two_starts
           [["_"; "_"]; ["_"; "_"]]%char 1 1 ∅ 0 0);
    [vm_compute; reflexivity|lia|lia|vm_compute; reflexivity].
Defined.

(** X6: [read_input] returns no start position exactly when none of the
    first [rows] world lines holds a start marker. *)
Theorem read_input_no_start cols rows world_lines grid robot_pos dirty :
  read_input cols rows world_lines = Some (grid, robot_pos, dirty) →
  robot_pos = None
  ↔ ∀ line, line ∈ take (Z.to_nat rows) world_lines →
      "@"%char ∉ String.list_ascii_of_string line.
Proof.
  intros Hr. apply read_input_spec in Hr as (_ & _ & Hrp). split.
  - intros ->. destruct Hrp as [[_ Hno]|(i & j & line & ? & _)]; [|done].
    intros line [i Hi]%list_elem_of_lookup_1.
    apply lookup_take_Some in Hi as [Hl Hi]. by apply (Hno i).
  - intros Hno. destruct Hrp as [[-> _]|(i & j & line & _ & Hi & Hl & Hj & _)]; [done|].
    exfalso. apply (Hno line).
    + apply (list_elem_of_lookup_2 _ i). by rewrite lookup_take_lt.
    + by apply (list_elem_of_lookup_2 _ j).
Qed.

Lemma read_input_no_start_witness :
  Some (0, 2) = None
  ↔ ∀ line, line ∈ take (Z.to_nat 1) ["_*@"%string] →
      "@"%char ∉ String.list_ascii_of_string line.
Proof.
  apply (read_input_no_start 3 1 ["_*@"%string] tiny_world (Some (0, 2)) tiny_dirty).
  vm_compute. reflexivity.
Defined.

(** In a file whose lines have [cols] characters, a character that is not
    a wall gives a cell the robot can stand on. *)
Lemma loaded_passable cols rows (world_lines : list string) (i j : nat) line ch :
  Forall (λ line, String.length line = Z.to_nat cols)
         (take (Z.to_nat rows) world_lines) →
  (i < Z.to_nat rows)%nat → world_lines !! i = Some line →
  String.list_ascii_of_string line !! j = Some ch → ch ≠ "#"%char →
  passable cols rows
    ((λ line, (λ ch, if bool_decide (ch = "@"%char) then "_"%char else ch)
              <$> String.list_ascii_of_string line)
     <$> take (Z.to_nat rows) world_lines) (Z.of_nat i) (Z.of_nat j)
  = Some true.
Proof.
  intros Hlen Hi Hl Hj Hch. unfold passable.
  rewrite Forall_lookup in Hlen. specialize (Hlen i line).
  rewrite lookup_take_lt in Hlen by done. specialize (Hlen Hl). simpl in Hlen.
  pose proof (lookup_lt_Some _ _ _ Hj) as Hlt.
  rewrite length_list_ascii_of_string in Hlt.
  rewrite !bool_decide_eq_true_2 by lia. simpl.
  rewrite cell_loaded, decide_True by lia. unfold cell.
  rewrite list_lookup_fmap, !Nat2Z.id, Hl. simpl. rewrite Hj. simpl.
  f_equal. apply bool_decide_eq_true_2. by case_bool_decide.
Qed.

(** Lines of [cols] characters give a rectangular grid. *)
Lemma read_input_wf_world cols rows world_lines grid robot_pos dirty :
  read_input cols rows world_lines = Some (grid, robot_pos, dirty) →
  Forall (λ line, String.length line = Z.to_nat cols)
         (take (Z.to_nat rows) world_lines) →
  wf_world cols rows grid.
Proof.
  intros Hr Hlen.
  assert (Z.to_nat rows ≤ length world_lines)%nat as Hrows.
  { assert (is_Some (read_input cols rows world_lines)) as Hs by (by eexists).
    unfold read_input in Hs. rewrite scan_rows_is_Some in Hs by lia.
    change (Z.to_nat 0) with 0%nat in Hs. lia. }
  apply read_input_spec in Hr as (-> & _). split.
  - rewrite length_fmap, length_take. lia.
  - rewrite Forall_fmap. eapply Forall_impl; [exact Hlen|].
    intros line Hl. simpl. by rewrite length_fmap, length_list_ascii_of_string.
Qed.

(** X7: when each of the first [rows] world lines has [cols] characters,
    the grid [read_input] returns is a validated [rows] x [cols] world, and
    the start cell and every dirty cell pass the test that guards a move
    (within the bounds, not a wall). *)
Theorem read_input_wf cols rows world_lines grid robot_pos dirty :
  read_input cols rows world_lines = Some (grid, robot_pos, dirty) →
  Forall (λ line, String.length line = Z.to_nat cols)
         (take (Z.to_nat rows) world_lines) →
  wf_world cols rows grid
  ∧ (∀ p, p ∈ dirty ∨ robot_pos = Some p →
       passable cols rows grid p.1 p.2 = Some true).
Proof.
  intros Hr Hlen. split; [by eapply read_input_wf_world|].
  apply read_input_spec in Hr as (-> & Hd & Hrp).
  intros p [(i & j & line & Hi & Hl & Hj & ->)%Hd| ->].
  - by apply (loaded_passable _ _ _ _ _ line "*"%char).
  - destruct Hrp as [[? _]|(i & j & line & [= ->] & Hi & Hl & Hj & _)]; [done|].
    by apply (loaded_passable _ _ _ _ _ line "@"%char).
Qed.

Lemma read_input_wf_witness :
  wf_world 3 1 tiny_world
  ∧ (∀ p, p ∈ tiny_dirty ∨ Some (0, 2) = Some p →
       passable 3 1 tiny_world p.1 p.2 = Some true).
Proof.
  apply (read_input_wf 3 1 ["_*@"%string] tiny_world (Some (0, 2)) tiny_dirty).
  - vm_compute. reflexivity.
  - repeat constructor.
Defined.

(* ===================================================================== *)
(** ** Properties of the nodes a run creates *)
(* ===================================================================== *)

Section NodeInvariant.
Context {F : Type}.
Variable push : F → RobotState → F.
Variable pop : F → option (RobotState * F).
Variable elems : F → list RobotState.
Variable fr_ok : F → Prop.
Variables (cols rows : Z) (world : World).
Hypothesis laws : frontier_laws push pop elems fr_ok.

(** A property of nodes that the loop body keeps: it passes from a popped
    node, through the vacuum step, to each successor. *)
Variable P : RobotState → Prop.
Hypothesis P_successor : ∀ n a dr dc,
  (a, (dr, dc)) ∈ directions → P n →
  P (mkRobotState ((position n).1 + dr, (position n).2 + dc)
       (dirty_cells (vacuum n)) (path (vacuum n) ++ [a])).

Lemma step_node_invariant st st' :
  fr_ok (frontier st) → (∀ n, n ∈ elems (frontier st) → P n) →
  step push pop cols rows world st = inr st' →
  fr_ok (frontier st') ∧ (∀ n, n ∈ elems (frontier st') → P n).
Proof.
  intros Hok HP. rewrite (step_unfold push pop cols rows world).
  destruct (pop (frontier st)) as [[cur fr1]|] eqn:Hpop; [|done].
  pose proof (fl_pop_ok _ _ _ _ laws _ _ _ Hok Hpop) as Hok1.
  pose proof (fl_pop_elems _ _ _ _ laws _ _ _ Hok Hpop) as Helems.
  case_decide as Hgoal; [done|].
  destruct (successors cols rows world (vacuum cur)) as [news|] eqn:Hnews; [|done].
  intros [= <-]. cbn [frontier].
  set (fresh := filter (λ n, key_of n ∉ explored st) news).
  destruct (foldl_push_ok push pop elems fr_ok laws fr1 fresh Hok1) as [Hok2 Helems2].
  split; [done|]. intros n. rewrite Helems2, elem_of_app.
  intros [Hn|Hn].
  - apply list_elem_of_filter in Hn as [_ Hn].
    destruct (succs_elem _ _ _ _ _ _ _ Hnews Hn) as (a & dr & dc & Hd & Hs).
    apply successor_position in Hs as [-> _]. rewrite vacuum_position.
    apply P_successor; [done|]. apply HP. rewrite Helems. by left.
  - apply HP. rewrite Helems. by right.
Qed.

(** Every popped node has the property. *)
Lemma popped_node_invariant fuel : ∀ st,
  fr_ok (frontier st) → (∀ n, n ∈ elems (frontier st) → P n) →
  Forall P (popped push pop cols rows world fuel st).
Proof.
  induction fuel as [|fuel IH]; intros st Hok HP; [constructor|].
  cbn [popped]. destruct (pop (frontier st)) as [[cur fr1]|] eqn:Hpop; [|constructor].
  constructor.
  - apply HP. rewrite (fl_pop_elems _ _ _ _ laws _ _ _ Hok Hpop). by left.
  - destruct (step push pop cols rows world st) as [r|st'] eqn:Hstep; [constructor|].
    destruct (step_node_invariant st st' Hok HP Hstep). by apply IH.
Qed.

(** A returned path is the path of a node with the property, after the
    vacuum step. *)
Lemma solved_node_invariant fuel : ∀ st acts g e,
  fr_ok (frontier st) → (∀ n, n ∈ elems (frontier st) → P n) →
  search_loop push pop cols rows world fuel st = Solved acts g e →
  ∃ n, P n ∧ dirty_cells (vacuum n) = ∅ ∧ acts = path (vacuum n).
Proof.
  induction fuel as [|fuel IH]; intros st acts g e Hok HP; [done|].
  cbn [search_loop].
  destruct (step push pop cols rows world st) as [r|st'] eqn:Hstep.
  - intros ->. rewrite (step_unfold push pop cols rows world) in Hstep.
    destruct (pop (frontier st)) as [[cur fr1]|] eqn:Hpop; [|done].
    case_decide as Hgoal.
    + injection Hstep as <- _ _. exists cur. split; [|done].
      apply HP. rewrite (fl_pop_elems _ _ _ _ laws _ _ _ Hok Hpop). by left.
    + by destruct (successors cols rows world (vacuum cur)).
  - destruct (step_node_invariant st st' Hok HP Hstep). by apply IH.
Qed.
End NodeInvariant.

(** The same for the two strategies, from their start states. *)
Lemma run_node_invariant cols rows world start (P : RobotState → Prop) fuel acts g e :
  (∀ n a dr dc, (a, (dr, dc)) ∈ directions → P n →
     P (mkRobotState ((position n).1 + dr, (position n).2 + dc)
          (dirty_cells (vacuum n)) (path (vacuum n) ++ [a]))) →
  P start →
  ucs cols rows world start fuel = Solved acts g e
  ∨ dfs cols rows world start fuel = Solved acts g e →
  ∃ n, P n ∧ dirty_cells (vacuum n) = ∅ ∧ acts = path (vacuum n).
Proof.
  intros HP Hstart [Hr|Hr].
  - eapply (solved_node_invariant ucs_push ucs_pop ucs_elems _ cols rows world
              ucs_frontier_laws P HP fuel (ucs_init start)); [| |exact Hr].
    + apply heapq_facts.heappush_is_heap, heapq_facts.is_heap_nil;
        [apply entry_lt_asym|apply entry_le_trans].
    + intros n. change (ucs_elems (frontier (ucs_init start))) with [start].
      by intros ->%list_elem_of_singleton.
  - eapply (solved_node_invariant dfs_push dfs_pop dfs_elems _ cols rows world
              dfs_frontier_laws P HP fuel (dfs_init start)); [| |exact Hr].
    + exact I.
    + intros n. change (dfs_elems (frontier (dfs_init start))) with [start].
      by intros ->%list_elem_of_singleton.
Qed.

(* ===================================================================== *)
(** ** What a returned plan looks like *)
(* ===================================================================== *)

Lemma replay_labels cols rows world l : ∀ s s',
  replay cols rows world s l = Some s' →
  Forall (λ a, a ∈ ["N"; "S"; "E"; "W"; "V"]%string) l.
Proof.
  induction l as [|a l IH]; intros s s'; [constructor|]. simpl.
  destruct (act cols rows world s a) as [s1|] eqn:Ha; [|done]. simpl.
  intros Hr. constructor; [|by eapply IH].
  apply act_inv in Ha as [[-> _]|(dr & dc & Hd & _)].
  - set_solver.
  - unfold directions in Hd. rewrite !elem_of_cons, elem_of_nil in Hd.
    destruct Hd as [[= -> _ _]|[[= -> _ _]|[[= -> _ _]|[[= -> _ _]|[]]]]]; set_solver.
Qed.

(** X11: a plan returned by either strategy consists of the labels N, S,
    E, W and V only. *)
Theorem solution_labels cols rows world pos dirty fuel acts g e :
  ucs cols rows world (mkRobotState pos dirty []) fuel = Solved acts g e
  ∨ dfs cols rows world (mkRobotState pos dirty []) fuel = Solved acts g e →
  Forall (λ a, a ∈ ["N"; "S"; "E"; "W"; "V"]%string) acts.
Proof.
  intros Hr.
  assert (cleans cols rows world (pos, dirty) acts) as [p Hp].
  { destruct Hr as [Hr|Hr].
    - pose proof (ucs_run_ok cols rows world pos dirty fuel) as H.
      rewrite Hr in H. apply H.
    - pose proof (dfs_run_ok cols rows world pos dirty fuel) as H.
      rewrite Hr in H. apply H. }
  by eapply replay_labels.
Qed.

Lemma solution_labels_witness :
  Forall (λ a, a ∈ ["N"; "S"; "E"; "W"; "V"]%string) ["W"; "V"]%string.
Proof.
  apply (solution_labels 3 1 tiny_world (0, 2) tiny_dirty 8 ["W"; "V"]%string 1 2).
  left. vm_compute. reflexivity.
Defined.

(** X12: a plan returned by either strategy holds exactly one vacuum
    action per initially dirty cell (the loop vacuums only on a dirty
    cell, and the goal is reached only with no dirty cell left). *)
Theorem solution_vacuums cols rows world pos dirty fuel acts g e :
  ucs cols rows world (mkRobotState pos dirty []) fuel = Solved acts g e
  ∨ dfs cols rows world (mkRobotState pos dirty []) fuel = Solved acts g e →
  length (filter (λ a, a = "V"%string) acts) = size dirty.
Proof.
  intros Hr.
  set (P := λ n : RobotState,
         (length (filter (λ a, a = "V"%string) (path n)) + size (dirty_cells n)
          = size dirty)%nat).
  assert (Hvac : ∀ n, P n → P (vacuum n)).
  { intros n Hn. unfold P, vacuum in *. case_decide as Hin; [|done]. simpl.
    rewrite filter_app, length_app, filter_cons_True, filter_nil by done. simpl.
    rewrite size_difference by set_solver. rewrite size_singleton.
    assert (size (dirty_cells n) ≠ 0%nat); [|lia].
    intros Hz%size_empty_inv. set_solver. }
  destruct (run_node_invariant cols rows world (mkRobotState pos dirty []) P fuel acts g e) as (n & Hn & Hgoal & ->);
    [| |exact Hr|].
  - intros n a dr dc Hd Hn%Hvac. unfold P in *. simpl.
    rewrite filter_app, length_app, filter_cons_False, filter_nil;
      [simpl; lia|]. by eapply directions_not_V.
  - unfold P. simpl. lia.
  - apply Hvac in Hn. unfold P in Hn. rewrite Hgoal, size_empty in Hn. lia.
Qed.

Lemma solution_vacuums_witness :
  length (filter (λ a, a = "V"%string) ["W"; "V"]%string) = size tiny_dirty.
Proof.
  apply (solution_vacuums 3 1 tiny_world (0, 2) tiny_dirty 8 ["W"; "V"]%string 1 2).
  left. vm_compute. reflexivity.
Defined.

(** X13: a plan returned by either strategy starts with a vacuum action
    exactly when the start cell is dirty. *)
Theorem solution_first_action cols rows world pos dirty fuel acts g e :
  ucs cols rows world (mkRobotState pos dirty []) fuel = Solved acts g e
  ∨ dfs cols rows world (mkRobotState pos dirty []) fuel = Solved acts g e →
  head acts = Some "V"%string ↔ pos ∈ dirty.
Proof.
  intros Hr.
  set (P := λ n : RobotState,
         (path n = [] ∧ key_of n = (pos, dirty))
         ∨ (path n ≠ [] ∧ (head (path n) = Some "V"%string ↔ pos ∈ dirty))).
  assert (Hvac : ∀ n, P n →
            path (vacuum n) = [] ∧ pos ∉ dirty
            ∨ (path (vacuum n) ≠ []
               ∧ (head (path (vacuum n)) = Some "V"%string ↔ pos ∈ dirty))).
  { intros n [[Hp [= Hpos Hd]]|[Hp Hh]]; rewrite vacuum_path.
    - rewrite Hp, Hpos, Hd. case_decide; [right|left]; simpl; [|done].
      split; [done|]. done.
    - right. destruct (path n) as [|a l]; [done|]. simpl. done. }
  destruct (run_node_invariant cols rows world (mkRobotState pos dirty []) P fuel acts g e) as (n & Hn & Hgoal & ->);
    [| |exact Hr|].
  - intros n a dr dc Hd Hn%Hvac. right. simpl.
    destruct Hn as [[-> Hnot]|[Hp Hh]].
    + simpl. split; [done|]. split; [|done]. intros [= ->].
      by apply directions_not_V in Hd.
    + destruct (path (vacuum n)) as [|b l]; [done|]. simpl. split; [done|]. done.
  - left. done.
  - destruct (Hvac n Hn) as [[-> Hnot]|[_ Hh]]; [|done]. simpl. split; [done|]. done.
Qed.

Lemma solution_first_action_witness :
  head ["W"; "V"]%string = Some "V"%string ↔ (0, 2) ∈ tiny_dirty.
Proof.
  apply (solution_first_action 3 1 tiny_world (0, 2) tiny_dirty 8 ["W"; "V"]%string 1 2).
  left. vm_compute. reflexivity.
Defined.

(* ===================================================================== *)
(** ** The counters of a finished run *)
(* ===================================================================== *)

Section Counters.
Context {F : Type}.
Variable push : F → RobotState → F.
Variable pop : F → option (RobotState * F).
Variable elems : F → list RobotState.
Variable fr_ok : F → Prop.
Variables (cols rows : Z) (world : World).
Variable k0 : Key.
Hypothesis laws : frontier_laws push pop elems fr_ok.

(** When the frontier runs empty every node that was pushed has been
    popped: the start node and the generated ones. *)
Lemma search_loop_exhausted fuel : ∀ st g e,
  inv elems fr_ok cols rows world k0 st →
  search_loop push pop cols rows world fuel st = Exhausted g e →
  e = (g + 1)%nat.
Proof.
  induction fuel as [|fuel IH]; intros st g e Hinv; [done|].
  cbn [search_loop]. rewrite (step_unfold push pop cols rows world).
  destruct (pop (frontier st)) as [[cur fr]|] eqn:Hpop.
  - case_decide as Hgoal; [done|].
    destruct (successors cols rows world (vacuum cur)) as [news|] eqn:Hnews; [|done].
    destruct (inv_step push pop elems fr_ok cols rows world k0 laws
                st cur fr news Hinv Hpop Hgoal Hnews) as [Hinv' _].
    by apply IH.
  - intros [= <- <-].
    pose proof (inv_exp _ _ _ _ _ _ _ Hinv) as Hexp.
    rewrite (fl_pop_None _ _ _ _ laws _ Hpop) in Hexp. simpl in Hexp. lia.
Qed.
End Counters.

(** X14: when either strategy gives up, the expanded counter is the
    generated counter plus one: the start node and every generated node
    were popped. *)
Theorem exhausted_expands_all cols rows world pos dirty fuel g e :
  ucs cols rows world (mkRobotState pos dirty []) fuel = Exhausted g e
  ∨ dfs cols rows world (mkRobotState pos dirty []) fuel = Exhausted g e →
  e = (g + 1)%nat.
Proof.
  intros [Hr|Hr].
  - eapply (search_loop_exhausted ucs_push ucs_pop ucs_elems _ cols rows world
              (pos, dirty) ucs_frontier_laws fuel); [|exact Hr].
    apply ucs_init_inv.
  - eapply (search_loop_exhausted dfs_push dfs_pop dfs_elems _ cols rows world
              (pos, dirty) dfs_frontier_laws fuel); [|exact Hr].
    apply dfs_init_inv.
Qed.

Lemma exhausted_expands_all_witness : 1%nat = (0 + 1)%nat.
Proof.
  apply (exhausted_expands_all 3 1 walled_world (0, 0) walled_dirty 8 0 1).
  left. vm_compute. reflexivity.
Defined.

(* ===================================================================== *)
(** ** Edge cases and bounds *)
(* ===================================================================== *)

(** X10: with no dirty cell, either strategy returns the empty plan in
    its first iteration, with 0 nodes generated and 1 expanded, whatever
    the grid and the start position (the grid is not looked at). *)
Theorem nothing_to_clean cols rows world pos fuel :
  ucs cols rows world (mkRobotState pos ∅ []) (S fuel) = Solved [] 0 1
  ∧ dfs cols rows world (mkRobotState pos ∅ []) (S fuel) = Solved [] 0 1.
Proof.
  assert (vacuum (mkRobotState pos ∅ []) = mkRobotState pos ∅ []) as Hv.
  { unfold vacuum. simpl. by rewrite decide_False by apply not_elem_of_empty. }
  split.
  - unfold ucs. cbn [search_loop]. rewrite step_unfold.
    change (ucs_pop (frontier (ucs_init (mkRobotState pos ∅ []))))
      with (Some (mkRobotState pos ∅ [], @nil Entry)).
    cbv beta iota. by rewrite Hv.
  - unfold dfs. cbn [search_loop]. rewrite step_unfold.
    change (dfs_pop (frontier (dfs_init (mkRobotState pos ∅ []))))
      with (Some (mkRobotState pos ∅ [], @nil RobotState)).
    cbv beta iota. by rewrite Hv.
Qed.

(** X15: on a validated world no grid lookup of either strategy raises,
    wherever the start position and the dirty cells are. *)
Theorem validated_world_no_IndexError cols rows world pos dirty fuel :
  wf_world cols rows world →
  ucs cols rows world (mkRobotState pos dirty []) fuel ≠ IndexError
  ∧ dfs cols rows world (mkRobotState pos dirty []) fuel ≠ IndexError.
Proof.
  intros Hwf. split; intros Hr.
  - pose proof (ucs_run_ok cols rows world pos dirty fuel) as H.
    rewrite Hr in H. by apply H.
  - pose proof (dfs_run_ok cols rows world pos dirty fuel) as H.
    rewrite Hr in H. by apply H.
Qed.

Lemma validated_world_no_IndexError_witness :
  ucs 3 1 tiny_world (mkRobotState (0, 2) tiny_dirty []) 8 ≠ IndexError
  ∧ dfs 3 1 tiny_world (mkRobotState (0, 2) tiny_dirty []) 8 ≠ IndexError.
Proof.
  apply (validated_world_no_IndexError 3 1 tiny_world (0, 2) tiny_dirty 8).
  split; [reflexivity|]. repeat constructor.
Defined.

(* ===================================================================== *)
(** ** The two strategies compared *)
(* ===================================================================== *)

(** X16: from the same start, the plan of the uniform-cost strategy is
    never longer than the plan of the depth-first strategy. *)
Theorem ucs_no_longer_than_dfs cols rows world pos dirty fuel fuel' acts g e acts' g' e' :
  ucs cols rows world (mkRobotState pos dirty []) fuel = Solved acts g e →
  dfs cols rows world (mkRobotState pos dirty []) fuel' = Solved acts' g' e' →
  (length acts ≤ length acts')%nat.
Proof.
  intros Hu Hd.
  pose proof (dfs_run_ok cols rows world pos dirty fuel') as H.
  rewrite Hd in H. destruct H as [Hc _].
  eapply (ucs_loop_optimal cols rows world (pos, dirty) fuel); [|exact Hu|exact Hc].
  by apply opt_init.
Qed.

Lemma ucs_no_longer_than_dfs_witness :
  (length ["N"; "W"; "V"]%string
   ≤ length ["S"; "W"; "W"; "N"; "N"; "E"; "V"]%string)%nat.
Proof.
  apply (ucs_no_longer_than_dfs 3 3 detour_world (1, 2) tiny_dirty 20 20
           ["N"; "W"; "V"]%string 5 5
           ["S"; "W"; "W"; "N"; "N"; "E"; "V"]%string 8 7);
    vm_compute; reflexivity.
Defined.

(** X17: on a validated world, once the loop bound is large enough, the
    two strategies agree on whether there is a plan: one returns a plan
    exactly when the other does. *)
Theorem strategies_agree cols rows world pos dirty fuel :
  wf_world cols rows world →
  (fuel_bound cols rows dirty ≤ fuel)%nat →
  (∃ acts g e, ucs cols rows world (mkRobotState pos dirty []) fuel = Solved acts g e)
  ↔ (∃ acts g e, dfs cols rows world (mkRobotState pos dirty []) fuel = Solved acts g e).
Proof.
  intros Hwf Hfuel.
  pose proof (ucs_run_ok cols rows world pos dirty fuel) as Hu.
  pose proof (dfs_run_ok cols rows world pos dirty fuel) as Hd.
  split; intros (acts & g & e & Hr).
  - rewrite Hr in Hu. destruct Hu as [Hc _].
    destruct (dfs cols rows world _ fuel) as [acts' g' e'|g' e'| |]; simpl in Hd.
    + by exists acts', g', e'.
    + destruct Hd as [Hno _]. by destruct (Hno acts).
    + done.
    + lia.
  - rewrite Hr in Hd. destruct Hd as [Hc _].
    destruct (ucs cols rows world _ fuel) as [acts' g' e'|g' e'| |]; simpl in Hu.
    + by exists acts', g', e'.
    + destruct Hu as [Hno _]. by destruct (Hno acts).
    + done.
    + lia.
Qed.

Lemma strategies_agree_witness :
  (∃ acts g e, ucs 3 1 tiny_world (mkRobotState (0, 2) tiny_dirty []) 8 = Solved acts g e)
  ↔ (∃ acts g e, dfs 3 1 tiny_world (mkRobotState (0, 2) tiny_dirty []) 8 = Solved acts g e).
Proof.
  apply (strategies_agree 3 1 tiny_world (0, 2) tiny_dirty 8).
  - split; [reflexivity|]. repeat constructor.
  - vm_compute. lia.
Defined.

(* ===================================================================== *)
(** ** The order in which uniform-cost search expands nodes *)
(* ===================================================================== *)

(** With every entry filed under the length of its path and no entry
    below [m], the popped nodes have paths of length at least [m], in
    non-decreasing order. *)
Lemma ucs_popped_sorted cols rows world fuel : ∀ st m,
  heapq.is_heap entry_lt (frontier st) →
  (∀ e, e ∈ frontier st → e.1 = length (path e.2) ∧ (m ≤ e.1)%nat) →
  let l := popped ucs_push ucs_pop cols rows world fuel st in
  Forall (λ n, (m ≤ length (path n))%nat) l
  ∧ ∀ (i j : nat) a b, (i ≤ j)%nat → l !! i = Some a → l !! j = Some b →
      (length (path a) ≤ length (path b))%nat.
Proof.
  induction fuel as [|fuel IH]; intros st m Hh He; cbv zeta.
  { simpl. split; [constructor|]. intros i j a b _ Hi. rewrite ?lookup_nil in Hi. done. }
  cbn [popped]. rewrite step_unfold.
  destruct (ucs_pop (frontier st)) as [[cur fr1]|] eqn:Hpop0;
    [|split; [constructor|]; intros i j a b _ Hi; rewrite ?lookup_nil in Hi; done].
  unfold ucs_pop in Hpop0.
  destruct (heapq.heappop entry_lt (frontier st)) as [[e pq1]|] eqn:Hpop; [|done].
  simpl in Hpop0. injection Hpop0 as <- <-.
  destruct (heapq_facts.heappop_spec entry_lt entry_lt_asym entry_le_trans
              _ _ _ Hh Hpop) as (Hh1 & Hperm & _).
  assert (e ∈ frontier st) as Hin by (rewrite Hperm; by left).
  destruct (He e Hin) as [Hlen Hm].
  set (rest := match (if decide (dirty_cells (vacuum e.2) = ∅) then _ else _) with
               | inl _ => [] | inr st' => _ end).
  assert (Forall (λ n, (e.1 ≤ length (path n))%nat) rest
          ∧ ∀ (i j : nat) a b, (i ≤ j)%nat → rest !! i = Some a → rest !! j = Some b →
              (length (path a) ≤ length (path b))%nat) as [Hall Hsorted].
  { unfold rest. case_decide as Hgoal.
    { split; [constructor|]. intros i j a b _ Hi. rewrite ?lookup_nil in Hi. done. }
    destruct (successors cols rows world (vacuum e.2)) as [news|] eqn:Hnews;
      [|split; [constructor|]; intros i j a b _ Hi; rewrite ?lookup_nil in Hi; done].
    cbv zeta. set (fresh := filter (λ n, key_of n ∉ explored st) news).
    destruct (foldl_ucs_push pq1 fresh Hh1) as [Hh2 Hperm2].
    apply IH; cbn [frontier]; [done|].
    intros e'. rewrite Hperm2, elem_of_app. intros [Hn|He'].
    - apply list_elem_of_fmap in Hn as (n & -> & Hn). simpl. split; [done|].
      apply list_elem_of_filter in Hn as [_ Hn].
      destruct (succs_elem _ _ _ _ _ _ _ Hnews Hn) as (a & dr & dc & Hd & Hs).
      apply successor_position in Hs as [-> _]. simpl.
      rewrite length_app, vacuum_path, length_app. simpl. lia.
    - assert (e' ∈ frontier st) as Hin' by (rewrite Hperm; by right).
      destruct (He e' Hin') as [Hlen' _]. split; [done|].
      pose proof (heapq_facts.heappop_min entry_lt entry_lt_asym entry_le_trans
                    _ _ _ e' Hh Hpop He') as Hle.
      apply entry_le_spec in Hle. lia. }
  split.
  - constructor; [lia|]. eapply Forall_impl; [exact Hall|]. simpl. intros; lia.
  - intros [|i] [|j] a b Hij; simpl.
    + intros [= <-] [= <-]. lia.
    + intros [= <-] Hb. rewrite Forall_lookup in Hall. specialize (Hall j b Hb).
      simpl in Hall. lia.
    + lia.
    + apply Hsorted. lia.
Qed.

(** X18: the uniform-cost strategy pops its nodes in non-decreasing
    order of path length. *)
Theorem ucs_expands_by_length cols rows world pos dirty fuel (i j : nat) a b :
  (i ≤ j)%nat →
  popped ucs_push ucs_pop cols rows world fuel
    (ucs_init (mkRobotState pos dirty [])) !! i = Some a →
  popped ucs_push ucs_pop cols rows world fuel
    (ucs_init (mkRobotState pos dirty [])) !! j = Some b →
  (length (path a) ≤ length (path b))%nat.
Proof.
  destruct (ucs_popped_sorted cols rows world fuel
              (ucs_init (mkRobotState pos dirty [])) 0) as [_ H]; [| |exact (H i j a b)].
  - apply heapq_facts.heappush_is_heap, heapq_facts.is_heap_nil;
      [apply entry_lt_asym|apply entry_le_trans].
  - change (frontier (ucs_init (mkRobotState pos dirty [])))
      with [(0%nat, mkRobotState pos dirty [])].
    intros e ->%list_elem_of_singleton. simpl. split; [done|lia].
Qed.

Lemma ucs_expands_by_length_witness :
  (length (path (mkRobotState (0, 1)%Z far_dirty ["W"%string]))
   ≤ length (path (mkRobotState (0, 0)%Z far_dirty ["W"; "W"]%string)))%nat.
Proof.
  apply (ucs_expands_by_length 3 1 far_world (0, 2) far_dirty 10 1 3);
    [lia|vm_compute; reflexivity|vm_compute; reflexivity].
Defined.

(* ===================================================================== *)
(** ** The two frontiers as containers *)
(* ===================================================================== *)

(** X20: the frontier of the depth-first loop is a stack: popping after a
    push gives back the pushed node and the stack as it was, and only the
    empty stack cannot be popped. *)
Theorem dfs_stack_lifo stack s :
  dfs_pop (dfs_push stack s) = Some (s, stack)
  ∧ (dfs_pop stack = None ↔ stack = []).
Proof.
  unfold dfs_pop, dfs_push. split.
  - by rewrite last_snoc, removelast_last.
  - destruct (last stack) as [x|] eqn:Hl; simpl.
    + split; [done|]. intros ->. done.
    + split; [|done]. intros _. by apply last_None.
Qed.

(** X21: on a queue that satisfies the heap invariant, [heappush] adds
    exactly the pushed entry and [heappop] removes exactly the returned
    one, both keep the invariant, no entry left behind has a shorter path
    length than the returned one, and only the empty queue cannot be
    popped. *)
Theorem priority_queue_conserves pq :
  heapq.is_heap entry_lt pq →
  (∀ e, heapq.heappush entry_lt pq e ≡ₚ e :: pq
        ∧ heapq.is_heap entry_lt (heapq.heappush entry_lt pq e))
  ∧ (heapq.heappop entry_lt pq = None ↔ pq = [])
  ∧ ∀ e rest, heapq.heappop entry_lt pq = Some (e, rest) →
      pq ≡ₚ e :: rest ∧ heapq.is_heap entry_lt rest
      ∧ ∀ e', e' ∈ rest → (e.1 ≤ e'.1)%nat.
Proof.
  intros Hh. split_and!.
  - intros e. split; [apply heapq_facts.heappush_perm|].
    by apply heapq_facts.heappush_is_heap; [apply entry_lt_asym|apply entry_le_trans|].
  - apply heapq_facts.heappop_None.
  - intros e rest Hpop.
    destruct (heapq_facts.heappop_spec entry_lt entry_lt_asym entry_le_trans
                _ _ _ Hh Hpop) as (Hh1 & Hperm & _).
    split; [done|]. split; [done|]. intros e' He'.
    pose proof (heapq_facts.heappop_min entry_lt entry_lt_asym entry_le_trans
                  _ _ _ e' Hh Hpop He') as Hle.
    apply entry_le_spec in Hle. lia.
Qed.

Lemma priority_queue_conserves_witness :
  (∀ e, heapq.heappush entry_lt two_entry_queue e ≡ₚ e :: two_entry_queue
        ∧ heapq.is_heap entry_lt (heapq.heappush entry_lt two_entry_queue e))
  ∧ (heapq.heappop entry_lt two_entry_queue = None ↔ two_entry_queue = [])
  ∧ ∀ e rest, heapq.heappop entry_lt two_entry_queue = Some (e, rest) →
      two_entry_queue ≡ₚ e :: rest ∧ heapq.is_heap entry_lt rest
      ∧ ∀ e', e' ∈ rest → (e.1 ≤ e'.1)%nat.
Proof.
  apply (priority_queue_conserves two_entry_queue).
  intros i Hi. simpl in Hi. assert (i = 1%nat) as -> by lia.
  vm_compute. reflexivity.
Defined.

(** X22: the comparison the heap applies to queue entries (tuple order
    with [RobotState.__lt__] on ties) is a strict weak order: irreflexive,
    transitive, and with a transitive incomparability. *)
Theorem entry_lt_strict_weak_order :
  (∀ a, entry_lt a a = false)
  ∧ (∀ a b c, entry_lt a b = true → entry_lt b c = true → entry_lt a c = true)
  ∧ (∀ a b c, entry_lt a b = false → entry_lt b c = false → entry_lt a c = false).
Proof.
  split_and!.
  - intros a. rewrite <- not_true_iff_false, entry_lt_spec. lia.
  - intros a b c. rewrite !entry_lt_spec. lia.
  - intros a b c. rewrite <- !not_true_iff_false, !entry_lt_spec. lia.
Qed.

(* ===================================================================== *)
(** ** The program as a whole *)
(* ===================================================================== *)

Section ProgramFacts.
Variable int : string → option Z.
Variable file_lines : string → option (list string).

(** X8: the program ends with exit status 0 only when it was called with
    two arguments, the world file could be read and holds a start marker,
    and the chosen strategy returned a plan that cleans every dirty cell
    of that world. *)
Theorem main_argv_status_zero argv fuel :
  status (main_argv int file_lines argv fuel) = Some 0 →
  length argv = 3%nat
  ∧ ∃ cols rows grid pos dirty acts g e,
      read_input_file int file_lines (argv !!! 2%nat)
      = Some (cols, rows, grid, Some pos, dirty)
      ∧ main_argv int file_lines argv fuel = Ran (Solved acts g e)
      ∧ cleans cols rows grid (pos, dirty) acts.
Proof using Type.
  unfold main_argv. case_decide as Hlen; [done|].
  destruct (read_input_file int file_lines (argv !!! 2%nat))
    as [[[[[cols rows] grid] [pos|]] dirty]|] eqn:Hread; try done.
  2:{ by repeat case_decide. }
  intros Hs. split; [lia|]. exists cols, rows, grid, pos, dirty.
  pose proof (ucs_run_ok cols rows grid pos dirty fuel) as Hu.
  pose proof (dfs_run_ok cols rows grid pos dirty fuel) as Hd.
  repeat case_decide; [| |done].
  - destruct (ucs cols rows grid _ fuel) as [acts g e| | |]; try done.
    exists acts, g, e. split; [done|]. split; [done|]. apply Hu.
  - destruct (dfs cols rows grid _ fuel) as [acts g e| | |]; try done.
    exists acts, g, e. split; [done|]. split; [done|]. apply Hd.
Qed.
(** X9: called with a valid algorithm name on a readable file whose
    world lines have [cols] characters and hold a start marker, the
    program ends with status 0 exactly when some action sequence cleans
    the world of the file, and with status 1 exactly when none does. *)
Theorem main_argv_decides argv fuel lines cols rows grid pos dirty :
  length argv = 3%nat →
  argv !!! 1%nat = "uniform-cost"%string ∨ argv !!! 1%nat = "depth-first"%string →
  file_lines (argv !!! 2%nat) = Some lines →
  read_input_file int file_lines (argv !!! 2%nat)
  = Some (cols, rows, grid, Some pos, dirty) →
  Forall (λ line, String.length line = Z.to_nat cols)
         (take (Z.to_nat rows) (drop 2 lines)) →
  (fuel_bound cols rows dirty ≤ fuel)%nat →
  (status (main_argv int file_lines argv fuel) = Some 0
   ↔ ∃ acts, cleans cols rows grid (pos, dirty) acts)
  ∧ (status (main_argv int file_lines argv fuel) = Some 1
     ↔ ∀ acts, ¬ cleans cols rows grid (pos, dirty) acts).
Proof using Type.
  intros Hlen Halg Hfile Hread Hlines Hfuel.
  assert (wf_world cols rows grid) as Hwf.
  { unfold read_input_file in Hread. rewrite Hfile in Hread. simpl in Hread.
    destruct (lines !! 0%nat) as [l0|]; [|done]. simpl in Hread.
    destruct (int l0) as [cols'|]; [|done]. simpl in Hread.
    destruct (lines !! 1%nat) as [l1|]; [|done]. simpl in Hread.
    destruct (int l1) as [rows'|]; [|done]. simpl in Hread.
    destruct (read_input cols' rows' (drop 2 lines)) as [[[grid' rp'] dirty']|] eqn:Hr;
      [|done].
    simpl in Hread. injection Hread as -> -> -> -> ->.
    by eapply read_input_wf_world. }
  assert (∀ r, run_ok cols rows grid pos dirty fuel r →
            (exit_status r = Some 0 ↔ ∃ acts, cleans cols rows grid (pos, dirty) acts)
            ∧ (exit_status r = Some 1 ↔ ∀ acts, ¬ cleans cols rows grid (pos, dirty) acts))
    as Hrun.
  { intros [acts g e|g e| |]; simpl.
    - intros [Hc _]. split; [split; [by exists acts|done]|].
      split; [done|]. intros Hno. by destruct (Hno acts).
    - intros [Hno _]. split; [|split; [done|done]].
      split; [done|]. intros [acts Hc]. by destruct (Hno acts).
    - done.
    - lia. }
  unfold main_argv. rewrite decide_False by lia. rewrite Hread.
  destruct Halg as [->| ->].
  - rewrite decide_True by done. apply Hrun, ucs_run_ok.
  - rewrite decide_False by done. rewrite decide_True by done. apply Hrun, dfs_run_ok.
Qed.
End ProgramFacts.

Lemma main_argv_status_zero_witness :
  length tiny_argv = 3%nat
  ∧ ∃ cols rows grid pos dirty acts g e,
      read_input_file tiny_int tiny_files (tiny_argv !!! 2%nat)
      = Some (cols, rows, grid, Some pos, dirty)
      ∧ main_argv tiny_int tiny_files tiny_argv 8 = Ran (Solved acts g e)
      ∧ cleans cols rows grid (pos, dirty) acts.
Proof.
  apply (main_argv_status_zero tiny_int tiny_files tiny_argv 8).
  vm_compute. reflexivity.
Defined.

Lemma main_argv_decides_witness :
  (status (main_argv tiny_int tiny_files tiny_argv 8) = Some 0
   ↔ ∃ acts, cleans 3 1 tiny_world ((0, 2), tiny_dirty) acts)
  ∧ (status (main_argv tiny_int tiny_files tiny_argv 8) = Some 1
     ↔ ∀ acts, ¬ cleans 3 1 tiny_world ((0, 2), tiny_dirty) acts).
Proof.
  apply (main_argv_decides tiny_int tiny_files tiny_argv 8 ["3"; "1"; "_*@"]%string).
  - reflexivity.
  - left. reflexivity.
  - reflexivity.
  - vm_compute. reflexivity.
  - repeat constructor.
  - vm_compute. lia.
Defined.
